(** * homebridge-seam: a shallow embedding of the lock accessory, the Seam API
    wrapper, the polling loop, the webhook receiver and the command path,
    with the properties of the specification stated over it.

    Layout: Part I holds the definitions, module by module, each translated
    from the JavaScript function of the same name; Part II holds the
    theorems.

    Conventions of the embedding.
    - A JavaScript number that is a time stamp (milliseconds since the epoch)
      is a [Z]; where the source can hold [undefined] or [NaN] in its place
      the type is [option Z] and [None] stands for both: the two behave alike
      in every test the source makes ([x && ...] is falsy, [t <= x] is
      false).
    - Any other JavaScript number (a battery level) is an exact rational [Q];
      the rounding error of a double product is not modelled.
    - A property that the source tests with [typeof v === 'boolean'] or
      [typeof v === 'number'] is an [option]: [None] is "absent or of another
      type".
    - Objects that the source mutates in place are records threaded through
      the functions; a function returns the new record. *)

From Stdlib Require Import ZArith NArith QArith Qround String Ascii List Bool Lia.
Import ListNotations.
Local Open Scope string_scope.
Local Open Scope list_scope.

(* ===================================================================== *)
(** * Part I: definitions                                                  *)
(* ===================================================================== *)

(** ** JavaScript truthiness, for the value shapes the sources test *)
Module Js.

Definition truthy_string (s : string) : bool := negb (String.eqb s "").

Definition truthy_number (q : Q) : bool := negb (Qeq_bool q 0).

Definition truthy_time (t : option Z) : bool :=
  match t with
  | Some z => negb (Z.eqb z 0)
  | None => false
  end.

Definition truthy_opt_string (s : option string) : bool :=
  match s with
  | Some x => truthy_string x
  | None => false
  end.

(** [a || b] on two optional strings. *)
Definition or_string (a b : option string) : option string :=
  if truthy_opt_string a then a else b.

(** [x < y] on numbers. *)
Definition Qlt_bool (x y : Q) : bool := negb (Qle_bool y x).

(** [Math.round]: the nearest integer, halves rounded up. *)
Definition Math_round (q : Q) : Z := Qfloor (q + (1 # 2)).

End Js.

(** ** lockAccessory.js (the revision with [isCommandInProgress]) *)
Module Accessory.

(** The status object that [getLockStatus] returns and that the webhook
    handler builds piecewise. *)
Record LockStatus := mkStatus {
  locked : option bool;
  battery_level : option Q;
  online : option bool;
  door_open : option bool
}.

(** What the accessory pushes to HomeKit with [updateValue]. *)
Inductive HapUpdate :=
| LockCurrentState (secured : bool)
| LockTargetState (secured : bool)
| BatteryLevel (level : Q)
| StatusLowBattery (low : bool)
| ContactSensorState (contact_not_detected : bool).

Record BatteryCache := mkCache {
  level : Q;
  isLow : bool;
  lastUpdated : Z;
  cacheTimeout : Z
}.

Record LockAccessory := mkLock {
  deviceId : string;
  isLocked : bool;
  batteryLevel : Q;
  isLowBattery : bool;
  isDoorOpen : bool;
  supportsDoorSensor : bool;
  contactService : bool;          (* the service object exists *)
  isCommandInProgress : bool;
  commandPromise : option nat;    (* identifier of the pending promise *)
  batteryCache : BatteryCache;
  lastEventTime : option Z;
  isOnline : bool;
  characteristics : list HapUpdate (* updateValue calls, oldest first *)
}.

Definition set_isLocked (v : bool) (a : LockAccessory) : LockAccessory :=
  mkLock (deviceId a) v (batteryLevel a) (isLowBattery a) (isDoorOpen a)
    (supportsDoorSensor a) (contactService a) (isCommandInProgress a)
    (commandPromise a) (batteryCache a) (lastEventTime a) (isOnline a)
    (characteristics a).

Definition set_battery (v : Q) (low : bool) (a : LockAccessory) : LockAccessory :=
  mkLock (deviceId a) (isLocked a) v low (isDoorOpen a)
    (supportsDoorSensor a) (contactService a) (isCommandInProgress a)
    (commandPromise a) (batteryCache a) (lastEventTime a) (isOnline a)
    (characteristics a).

Definition set_isDoorOpen (v : bool) (a : LockAccessory) : LockAccessory :=
  mkLock (deviceId a) (isLocked a) (batteryLevel a) (isLowBattery a) v
    (supportsDoorSensor a) (contactService a) (isCommandInProgress a)
    (commandPromise a) (batteryCache a) (lastEventTime a) (isOnline a)
    (characteristics a).

Definition set_command (flag : bool) (p : option nat) (a : LockAccessory)
  : LockAccessory :=
  mkLock (deviceId a) (isLocked a) (batteryLevel a) (isLowBattery a)
    (isDoorOpen a) (supportsDoorSensor a) (contactService a) flag p
    (batteryCache a) (lastEventTime a) (isOnline a) (characteristics a).

Definition set_batteryCache (c : BatteryCache) (a : LockAccessory)
  : LockAccessory :=
  mkLock (deviceId a) (isLocked a) (batteryLevel a) (isLowBattery a)
    (isDoorOpen a) (supportsDoorSensor a) (contactService a)
    (isCommandInProgress a) (commandPromise a) c (lastEventTime a)
    (isOnline a) (characteristics a).

Definition set_lastEventTime (t : option Z) (a : LockAccessory)
  : LockAccessory :=
  mkLock (deviceId a) (isLocked a) (batteryLevel a) (isLowBattery a)
    (isDoorOpen a) (supportsDoorSensor a) (contactService a)
    (isCommandInProgress a) (commandPromise a) (batteryCache a) t
    (isOnline a) (characteristics a).

Definition set_isOnline (v : bool) (a : LockAccessory) : LockAccessory :=
  mkLock (deviceId a) (isLocked a) (batteryLevel a) (isLowBattery a)
    (isDoorOpen a) (supportsDoorSensor a) (contactService a)
    (isCommandInProgress a) (commandPromise a) (batteryCache a)
    (lastEventTime a) v (characteristics a).

Definition updateValue (us : list HapUpdate) (a : LockAccessory)
  : LockAccessory :=
  mkLock (deviceId a) (isLocked a) (batteryLevel a) (isLowBattery a)
    (isDoorOpen a) (supportsDoorSensor a) (contactService a)
    (isCommandInProgress a) (commandPromise a) (batteryCache a)
    (lastEventTime a) (isOnline a) (characteristics a ++ us).

(** The accessory as the constructor leaves it. *)
Definition new_accessory (id : string) : LockAccessory :=
  mkLock id true 100 false false false false false None
    (mkCache 100 false 0 3600000) None true [].

(** [updateBatteryCache(level, isLow)], at clock reading [now]. *)
Definition updateBatteryCache (now : Z) (lvl : Q) (low : bool)
  (a : LockAccessory) : LockAccessory :=
  set_batteryCache
    (mkCache lvl low now (cacheTimeout (batteryCache a))) a.

(** The three blocks of [updateState], in source order. *)
Definition updateLockField (state : LockStatus) (a : LockAccessory)
  : LockAccessory :=
  match locked state with
  | Some b =>
      if negb (Bool.eqb b (isLocked a))
      then updateValue [LockCurrentState b; LockTargetState b]
             (set_isLocked b a)
      else a
  | None => a
  end.

Definition updateBatteryField (now : Z) (state : LockStatus)
  (a : LockAccessory) : LockAccessory :=
  match battery_level state with
  | Some v =>
      if negb (Qeq_bool v (batteryLevel a))
      then
        let low := Js.Qlt_bool v 20 in
        updateValue [BatteryLevel v; StatusLowBattery low]
          (updateBatteryCache now v low (set_battery v low a))
      else a
  | None => a
  end.

Definition updateDoorField (state : LockStatus) (a : LockAccessory)
  : LockAccessory :=
  match door_open state with
  | Some b =>
      if contactService a && negb (Bool.eqb b (isDoorOpen a))
      then updateValue [ContactSensorState b] (set_isDoorOpen b a)
      else a
  | None => a
  end.

(** [updateState(state)]: the whole update is skipped while a command is in
    progress. *)
Definition updateState (now : Z) (state : LockStatus) (a : LockAccessory)
  : LockAccessory :=
  if isCommandInProgress a then a
  else updateDoorField state
         (updateBatteryField now state (updateLockField state a)).

End Accessory.

(** ** The State Reconciler behind [updateStateWithPriority] *)
Module Reconciler.
Import Accessory.

Inductive Source := polling | webhook | command.

Definition is_command (s : Source) : bool :=
  match s with
  | command => true
  | _ => false
  end.

Inductive Field := FLocked | FBatteryLevel | FOnline | FDoorOpen.

Inductive ApplyResult :=
| Rejected
| AppliedChange (changed : list Field).

(** [t <= last] on time stamps; false when either side is not a number. *)
Definition not_newer (t last : option Z) : bool :=
  match t, last with
  | Some x, Some l => (x <=? l)%Z
  | _, _ => false
  end.

(** The watermark moved forward to [t]; it never moves backwards. *)
Definition advance (last t : option Z) : option Z :=
  match t with
  | None => last
  | Some x =>
      match last with
      | None => Some x
      | Some l => Some (Z.max l x)
      end
  end.

Definition apply_locked (v : option bool) (st : LockAccessory * list Field)
  : LockAccessory * list Field :=
  match v with
  | Some b =>
      if negb (Bool.eqb b (isLocked (fst st)))
      then (updateValue [LockCurrentState b; LockTargetState b]
              (set_isLocked b (fst st)), snd st ++ [FLocked])
      else st
  | None => st
  end.

Definition apply_battery (v : option Q) (st : LockAccessory * list Field)
  : LockAccessory * list Field :=
  match v with
  | Some q =>
      if negb (Qeq_bool q (batteryLevel (fst st)))
      then (updateValue [BatteryLevel q; StatusLowBattery (Js.Qlt_bool q 20)]
              (set_battery q (Js.Qlt_bool q 20) (fst st)),
            snd st ++ [FBatteryLevel])
      else st
  | None => st
  end.

Definition apply_online (v : option bool) (st : LockAccessory * list Field)
  : LockAccessory * list Field :=
  match v with
  | Some b =>
      if negb (Bool.eqb b (isOnline (fst st)))
      then (set_isOnline b (fst st), snd st ++ [FOnline])
      else st
  | None => st
  end.

Definition apply_door (v : option bool) (st : LockAccessory * list Field)
  : LockAccessory * list Field :=
  match v with
  | Some b =>
      if negb (Bool.eqb b (isDoorOpen (fst st)))
      then (updateValue [ContactSensorState b] (set_isDoorOpen b (fst st)),
            snd st ++ [FDoorOpen])
      else st
  | None => st
  end.

(** Modelled from the spec: [LockAccessory.updateStateWithPriority(state,
    source, eventTime)], which the polling loop and the webhook handler call
    and whose defining revision of lockAccessory.js is not among the sources.
    It follows the operation [apply] of the State Reconciler:
    - an update that is not a command and whose event time is [<=] the
      watermark is rejected, the state untouched;
    - while a command is in flight an update that is not a command does not
      write [locked]; its other fields are applied;
    - a door field is accepted only when the device supports a door sensor;
    - on acceptance the fields present are written, the low-battery flag is
      recomputed with the battery level, the watermark advances to the event
      time, and the fields whose value changed are returned. *)
Definition updateStateWithPriority (a : LockAccessory) (state : LockStatus)
  (source : Source) (eventTime : option Z) : LockAccessory * ApplyResult :=
  if negb (is_command source) && not_newer eventTime (lastEventTime a)
  then (a, Rejected)
  else
    let lock_field :=
      if isCommandInProgress a && negb (is_command source)
      then None else locked state in
    let door_field :=
      if supportsDoorSensor a then door_open state else None in
    let st :=
      apply_door door_field
        (apply_online (online state)
           (apply_battery (battery_level state)
              (apply_locked lock_field (a, [])))) in
    (set_lastEventTime (advance (lastEventTime a) eventTime) (fst st),
     AppliedChange (snd st)).

(** The accessory after the call, which is all that the callers use. *)
Definition reconcile (a : LockAccessory) (state : LockStatus)
  (source : Source) (eventTime : option Z) : LockAccessory :=
  fst (updateStateWithPriority a state source eventTime).

(** The shape of the method, for the callers that are stated over any
    implementation of it. *)
Definition Method : Type :=
  LockAccessory -> LockStatus -> Source -> option Z -> LockAccessory.

End Reconciler.

(** ** seamapi.js *)
Module SeamAPI.
Import Accessory.

(** [device.properties], as far as [getLockStatus] reads it. *)
Record Properties := mkProps {
  p_locked : option bool;
  p_battery_level : option Q;
  p_online : option bool;
  p_door_open : option bool
}.

(** What [getDevice] resolves with: [response.device], possibly
    [undefined], with possibly no [properties]. *)
Inductive Device :=
| NoDevice
| DeviceWith (properties : option Properties).

(** [x || false] on an optional boolean. *)
Definition or_false (x : option bool) : bool :=
  match x with
  | Some b => b
  | None => false
  end.

(** Lines 149-152: [battery_level || 100], then the rescaling. *)
Definition normalizeBattery (raw : option Q) : Q :=
  let batteryLevel :=
    match raw with
    | Some v => if Js.truthy_number v then v else 100
    | None => 100
    end in
  if Qle_bool batteryLevel 1
  then inject_Z (Js.Math_round (batteryLevel * 100))
  else batteryLevel.

(** [getLockStatus(deviceId)], given the outcome of [getDevice]: [inl] is a
    rejection, passed on to the caller. *)
Definition getLockStatus (device : string + Device) : string + LockStatus :=
  match device with
  | inl err => inl err
  | inr NoDevice => inl "TypeError"%string
  | inr (DeviceWith props) =>
      let get {A} (f : Properties -> option A) : option A :=
        match props with
        | Some p => f p
        | None => None
        end in
      inr (mkStatus
             (Some (or_false (get p_locked)))
             (Some (normalizeBattery (get p_battery_level)))
             (Some (or_false (get p_online)))
             (Some (or_false (get p_door_open))))
  end.

(** What [getLockStatus] returns as [battery_level] for a device whose
    [properties.battery_level] is [raw]. *)
Definition battery_of (raw : option Q) : option Q :=
  match getLockStatus
          (inr (DeviceWith (Some (mkProps None raw None None)))) with
  | inr status => battery_level status
  | inl _ => None
  end.

End SeamAPI.

(** ** platform.js: the polling loop *)
Module Platform.
Import Accessory Reconciler.

(** What [await this.seamAPI.getLockStatus(id)] can do. *)
Inductive PollOutcome :=
| PollThrows (message : string)
| PollInvalid                  (* a falsy value, or not an object *)
| PollStatus (status : LockStatus).

Section Polling.

Variable updateStateWithPriority : Method.
(** The remote API as seen by one cycle: the outcome of the query issued in
    iteration [i] for a device id, and the clock read after it. *)
Variable getLockStatus : nat -> string -> PollOutcome.
Variable Date_now : nat -> Z.

(** The body of the [for] loop for the accessory at index [i]. *)
Definition pollOne (i : nat) (accessory : LockAccessory) : LockAccessory :=
  match getLockStatus i (deviceId accessory) with
  | PollStatus status =>
      updateStateWithPriority accessory status polling (Some (Date_now i))
  | PollInvalid => accessory
  | PollThrows _ => accessory
  end.

Fixpoint pollFrom (i : nat) (accessories : list LockAccessory)
  : list LockAccessory :=
  match accessories with
  | [] => []
  | accessory :: rest => pollOne i accessory :: pollFrom (S i) rest
  end.

(** [pollDevices()]: the accessories after the cycle, and the device ids
    queried, in order. *)
Definition pollDevices (accessories : list LockAccessory)
  : list LockAccessory * list string :=
  (pollFrom 0 accessories, map deviceId accessories).

End Polling.

(** A query that threw, or that resolved with something that is not a
    status object. *)
Definition failed (o : PollOutcome) : Prop :=
  match o with
  | PollStatus _ => False
  | _ => True
  end.

End Platform.

(** ** crypto: SHA-256 and HMAC (FIPS 180-4, RFC 2104), on bytes *)
Module Crypto.
Local Open Scope N_scope.

Definition word : N := 4294967296.

Definition add32 (a b : N) : N := (a + b) mod word.

Definition rotr (n x : N) : N :=
  N.lor (N.shiftr x n) ((N.shiftl x (32 - n)) mod word).

Definition not32 (x : N) : N := N.lxor x 4294967295.

Definition Ch (x y z : N) : N :=
  N.lxor (N.land x y) (N.land (not32 x) z).

Definition Maj (x y z : N) : N :=
  N.lxor (N.lxor (N.land x y) (N.land x z)) (N.land y z).

Definition Sigma0 (x : N) : N :=
  N.lxor (N.lxor (rotr 2 x) (rotr 13 x)) (rotr 22 x).

Definition Sigma1 (x : N) : N :=
  N.lxor (N.lxor (rotr 6 x) (rotr 11 x)) (rotr 25 x).

Definition sigma0 (x : N) : N :=
  N.lxor (N.lxor (rotr 7 x) (rotr 18 x)) (N.shiftr x 3).

Definition sigma1 (x : N) : N :=
  N.lxor (N.lxor (rotr 17 x) (rotr 19 x)) (N.shiftr x 10).

Definition is_prime (n : nat) : bool :=
  (1 <? n)%nat
  && forallb (fun d => negb (Nat.eqb (n mod d) 0)) (seq 2 (n - 2)).

(** The first [k] primes, searched below [limit]. *)
Definition primes (k limit : nat) : list N :=
  map N.of_nat (firstn k (filter is_prime (seq 2 limit))).

(** The integer cube root, bit by bit from bit 40 down. *)
Definition cube_root (n : N) : N :=
  fold_left
    (fun r bit =>
       let c := r + N.shiftl 1 (N.of_nat bit) in
       if c * c * c <=? n then c else r)
    (rev (seq 0 41)) 0.

(** The round constants: the first 32 bits of the fractional parts of the
    cube roots of the first 64 primes. *)
Definition K : list N :=
  Eval vm_compute in
    map (fun p => cube_root (N.shiftl p 96) mod word) (primes 64 312).

(** The initial hash value: the same of the square roots of the first 8
    primes. *)
Definition H0 : list N :=
  Eval vm_compute in
    map (fun p => N.sqrt (N.shiftl p 64) mod word) (primes 8 20).

Definition nth_word (l : list N) (i : nat) : N := nth i l 0.

(** One round: the working variables and the sixteen-word window of the
    message schedule, whose head is the word of this round. *)
Definition round (st : list N * list N) (k : N) : list N * list N :=
  let v := fst st in
  let w := snd st in
  let a := nth_word v 0 in let b := nth_word v 1 in
  let c := nth_word v 2 in let d := nth_word v 3 in
  let e := nth_word v 4 in let f := nth_word v 5 in
  let g := nth_word v 6 in let h := nth_word v 7 in
  let t1 :=
    add32 (add32 (add32 (add32 h (Sigma1 e)) (Ch e f g)) k) (nth_word w 0) in
  let t2 := add32 (Sigma0 a) (Maj a b c) in
  let next :=
    add32 (add32 (add32 (sigma1 (nth_word w 14)) (nth_word w 9))
             (sigma0 (nth_word w 1))) (nth_word w 0) in
  ([add32 t1 t2; a; b; c; add32 d t1; e; f; g], tl w ++ [next]).

Definition compress (h : list N) (block : list N) : list N :=
  let v := fst (fold_left round K (h, block)) in
  map (fun i => add32 (nth_word h i) (nth_word v i)) (seq 0 8).

(** Big-endian words of a byte list. *)
Fixpoint words_of (bytes : list N) : list N :=
  match bytes with
  | b0 :: b1 :: b2 :: b3 :: rest =>
      (((b0 * 256 + b1) * 256 + b2) * 256 + b3) :: words_of rest
  | _ => []
  end.

Definition bytes_of_word (n : nat) (w : N) : list N :=
  map (fun i => (N.shiftr w (8 * N.of_nat (n - 1 - i))) mod 256) (seq 0 n).

Definition pad (bytes : list N) : list N :=
  let len := List.length bytes in
  let zeros := ((119 - (len mod 64)) mod 64)%nat in
  bytes ++ [128] ++ repeat 0 zeros
        ++ bytes_of_word 8 (8 * N.of_nat len).

Fixpoint blocks (n : nat) (ws : list N) : list (list N) :=
  match n with
  | O => []
  | S k =>
      match ws with
      | [] => []
      | _ => firstn 16 ws :: blocks k (skipn 16 ws)
      end
  end.

Definition sha256 (bytes : list N) : list N :=
  let ws := words_of (pad bytes) in
  flat_map (bytes_of_word 4)
    (fold_left compress (blocks (List.length ws) ws) H0).

Definition hmac_sha256 (key data : list N) : list N :=
  let k0 := if (64 <? List.length key)%nat then sha256 key else key in
  let k := k0 ++ repeat 0 (64 - List.length k0)%nat in
  sha256 (map (N.lxor 0x5c) k ++ sha256 (map (N.lxor 0x36) k ++ data)).

Definition bytes_of_string (s : string) : list N :=
  map N_of_ascii (list_ascii_of_string s).

Definition hex_char (n : N) : ascii :=
  ascii_of_N (if n <? 10 then 48 + n else 87 + n).

Fixpoint hex (bytes : list N) : string :=
  match bytes with
  | [] => EmptyString
  | b :: rest => String (hex_char (b / 16)) (String (hex_char (b mod 16)) (hex rest))
  end.

(** [crypto.createHmac('sha256', key).update(data, 'utf8').digest('hex')],
    the strings being sequences of UTF-8 bytes. *)
Definition hmac_sha256_hex (key data : string) : string :=
  hex (hmac_sha256 (bytes_of_string key) (bytes_of_string data)).

Definition sha256_hex (data : string) : string :=
  hex (sha256 (bytes_of_string data)).

End Crypto.

(** ** webhookServer.js: the receiver *)
Module Webhook.
Import Accessory Reconciler.

(** The parsed body, as far as the handler reads it. [occurred_at] is
    [None] when absent or falsy, [Some None] when [new Date(..).getTime()]
    is [NaN], [Some (Some t)] otherwise. *)
Record Payload := mkPayload {
  event_type : option string;
  device_id : option string;
  occurred_at : option (option Z);
  payload_battery_level : option Q
}.

(** What [JSON.parse] can return: [null], a value without the properties
    above (a boolean, a number, a string, an array), or an object. *)
Inductive JsValue :=
| JsNull
| JsOther
| JsObject (payload : Payload).

Record WebhookServer := mkServer {
  path : option string;
  secret : option string;
  webhookId : option nat;
  webhookUrl : option string;
  server : bool                  (* [this.server] is not null *)
}.

Record Request := mkRequest {
  method : string;
  url : string;
  x_seam_signature : option string;
  x_hub_signature_256 : option string;
  body : string
}.

Record Response := mkResponse {
  statusCode : nat;
  contentType : string;
  content : string
}.

(** The double-quote character, and what [JSON.stringify] writes for the
    small objects of the handler. *)
Definition dq : string := String "034"%char EmptyString.

Definition json_pair (k v : string) : string :=
  "{" ++ dq ++ k ++ dq ++ ":" ++ v ++ "}".

Definition not_found : Response :=
  mkResponse 404 "text/plain" "Not Found".
Definition unauthorized : Response :=
  mkResponse 401 "application/json"
    (json_pair "error" (dq ++ "Unauthorized" ++ dq)).
Definition bad_request : Response :=
  mkResponse 400 "application/json"
    (json_pair "error" (dq ++ "Bad Request" ++ dq)).
Definition success : Response :=
  mkResponse 200 "application/json" (json_pair "success" "true").

(** *** Hexadecimal buffers and the signature *)

Definition hex_digit (c : ascii) : option N :=
  let n := N_of_ascii c in
  if ((48 <=? n) && (n <=? 57))%N then Some (n - 48)%N
  else if ((97 <=? n) && (n <=? 102))%N then Some (n - 87)%N
  else if ((65 <=? n) && (n <=? 70))%N then Some (n - 55)%N
  else None.

(** [Buffer.from(s, 'hex')]: pairs of hexadecimal digits are decoded up to
    the first pair that is not one; a trailing single digit is dropped. *)
Fixpoint Buffer_from_hex (s : string) : list ascii :=
  match s with
  | String c1 (String c2 rest) =>
      match hex_digit c1, hex_digit c2 with
      | Some h, Some l => ascii_of_N (16 * h + l) :: Buffer_from_hex rest
      | _, _ => []
      end
  | _ => []
  end.

Fixpoint drop (n : nat) (s : string) : string :=
  match n, s with
  | S k, String _ rest => drop k rest
  | _, _ => s
  end.

(** [s.replace(pattern, '')]: the first occurrence is removed. *)
Fixpoint replace_first (pattern s : string) : string :=
  if String.prefix pattern s then drop (String.length pattern) s
  else
    match s with
    | EmptyString => EmptyString
    | String c rest => String c (replace_first pattern rest)
    end.

Fixpoint bytes_eqb (a b : list ascii) : bool :=
  match a, b with
  | [], [] => true
  | x :: a', y :: b' => Ascii.eqb x y && bytes_eqb a' b'
  | _, _ => false
  end.

(** [crypto.timingSafeEqual(a, b)]: throws ([None]) when the lengths
    differ. *)
Definition timingSafeEqual (a b : list ascii) : option bool :=
  if Nat.eqb (List.length a) (List.length b) then Some (bytes_eqb a b)
  else None.

(** *** Locating and replacing the accessory of a device *)

Definition is_device (deviceId' : option string) (acc : LockAccessory)
  : bool :=
  match deviceId' with
  | Some d => String.eqb (deviceId acc) d
  | None => false
  end.

(** The array after a function has mutated its first element that
    satisfies [p], i.e. the object that [Array.prototype.find] returns. *)
Fixpoint update_first {A} (p : A -> bool) (f : A -> A) (l : list A)
  : list A :=
  match l with
  | [] => []
  | x :: rest => if p x then f x :: rest else x :: update_first p f rest
  end.

(** The events for which [processWebhook] reaches no call of
    [updateStateWithPriority]: an event type outside the eight that carry
    state (so also [device.tampered] and [lock.access_denied]), a door event
    for an accessory without door sensor, a battery event whose
    [battery_level] is falsy. *)
Definition silent (eventType : string) (payload : Payload)
  (accessory : LockAccessory) : bool :=
  if String.eqb eventType "lock.locked"
     || String.eqb eventType "lock.unlocked"
     || String.eqb eventType "device.connected"
     || String.eqb eventType "device.disconnected"
  then false
  else if String.eqb eventType "device.low_battery"
          || String.eqb eventType "device.battery_status_changed"
  then match payload_battery_level payload with
       | Some v => negb (Js.truthy_number v)
       | None => true
       end
  else if String.eqb eventType "device.door_opened"
          || String.eqb eventType "device.door_closed"
  then negb (supportsDoorSensor accessory)
  else true.


Section Receiver.

(** [JSON.parse]: [None] when it throws. *)
Variable JSON_parse : string -> option JsValue.
Variable updateStateWithPriority : Method.

(** [verifySignature(payload, signature)]. *)
Definition verifySignature (this : WebhookServer) (payload signature : string)
  : bool :=
  match secret this with
  | None => true
  | Some key =>
      if negb (Js.truthy_string key) then true
      else if negb (Js.truthy_string signature) then false
      else
        let expectedSignature := Crypto.hmac_sha256_hex key payload in
        let providedSignature := replace_first "sha256=" signature in
        match timingSafeEqual (Buffer_from_hex expectedSignature)
                (Buffer_from_hex providedSignature) with
        | Some isValid => isValid
        | None => false            (* the catch block *)
        end
  end.

(** The [switch (eventType)] of [processWebhook]. *)
Definition dispatch (eventType : string) (payload : Payload)
  (eventTime : option Z) (accessory : LockAccessory) : LockAccessory :=
  let update (fields : LockStatus) :=
    updateStateWithPriority accessory fields webhook eventTime in
  let battery :=
    match payload_battery_level payload with
    | Some v =>
        if Js.truthy_number v
        then update (mkStatus None (Some v) None None)
        else accessory
    | None => accessory
    end in
  if String.eqb eventType "lock.locked"
  then update (mkStatus (Some true) None None None)
  else if String.eqb eventType "lock.unlocked"
  then update (mkStatus (Some false) None None None)
  else if String.eqb eventType "device.connected"
  then update (mkStatus None None (Some true) None)
  else if String.eqb eventType "device.disconnected"
  then update (mkStatus None None (Some false) None)
  else if String.eqb eventType "device.low_battery"
  then battery
  else if String.eqb eventType "device.battery_status_changed"
  then battery
  else if String.eqb eventType "device.door_opened"
  then if supportsDoorSensor accessory
       then update (mkStatus None None None (Some true))
       else accessory
  else if String.eqb eventType "device.door_closed"
  then if supportsDoorSensor accessory
       then update (mkStatus None None None (Some false))
       else accessory
  else if String.eqb eventType "device.tampered"
  then accessory
  else if String.eqb eventType "lock.access_denied"
  then accessory
  else accessory.

(** Lines 223-296 of [processWebhook], on the accessory that [find]
    returned: the watermark test, its update, and the switch. *)
Definition processEvent (eventType : string) (payload : Payload)
  (eventTime : option Z) (accessory : LockAccessory) : LockAccessory :=
  if Js.truthy_time (lastEventTime accessory)
     && not_newer eventTime (lastEventTime accessory)
  then accessory
  else dispatch eventType payload eventTime
         (set_lastEventTime eventTime accessory).

(** The event time of a payload received at clock reading [now]. *)
Definition eventTimeOf (now : Z) (payload : Payload) : option Z :=
  match occurred_at payload with
  | Some t => t
  | None => Some now
  end.

(** [processWebhook(payload)] on the platform's accessories. *)
Definition processWebhook (now : Z) (payload : JsValue)
  (accessories : list LockAccessory) : list LockAccessory :=
  match payload with
  | JsNull => accessories
  | JsOther => accessories
  | JsObject p =>
      match event_type p with
      | None => accessories
      | Some eventType =>
          if negb (Js.truthy_string eventType) then accessories
          else
            update_first (is_device (device_id p))
              (processEvent eventType p (eventTimeOf now p))
              accessories
      end
  end.

(** The rest of the [try] block once the signature is accepted (lines
    178-187), and its [catch]. *)
Definition processBody (now : Z) (req : Request)
  (accessories : list LockAccessory) : Response * list LockAccessory :=
  match JSON_parse (body req) with
  | None => (bad_request, accessories)
  | Some JsNull =>
      (* [payload.event_type] in the log line throws a TypeError *)
      (bad_request, accessories)
  | Some payload => (success, processWebhook now payload accessories)
  end.

(** [req.headers['x-seam-signature'] || req.headers['x-hub-signature-256']],
    [None] when the result is falsy. *)
Definition signatureOf (req : Request) : option string :=
  match Js.or_string (x_seam_signature req) (x_hub_signature_256 req) with
  | Some s => if Js.truthy_string s then Some s else None
  | None => None
  end.

(** [handleRequest(req, res)] with the body read in full: the response
    written and the accessories afterwards. *)
Definition handleRequest (this : WebhookServer) (now : Z) (req : Request)
  (accessories : list LockAccessory) : Response * list LockAccessory :=
  let on_path :=
    match path this with
    | Some p => String.eqb (url req) p
    | None => false
    end in
  if negb (String.eqb (method req) "POST") || negb on_path
  then (not_found, accessories)
  else
    match signatureOf req with
    | Some signature =>
        if negb (verifySignature this (body req) signature)
        then (unauthorized, accessories)
        else processBody now req accessories
    | None => processBody now req accessories
    end.

End Receiver.

End Webhook.

(** ** webhookServer.js: registration with the remote API *)
Module Lifecycle.
Import Accessory Webhook.

(** A subscription held by the remote API. *)
Record RemoteWebhook := mkWebhook {
  webhook_id : nat;
  wh_url : string;
  wh_event_types : list string
}.

Inductive ApiCall :=
| ListWebhooks
| CreateWebhook (target : string)
| DeleteWebhook (id : nat).

(** The remote API: its subscriptions, the identifier it gives to the next
    one, and the calls it currently rejects. *)
Record Remote := mkRemote {
  webhooks : list RemoteWebhook;
  next_id : nat;
  rejects : ApiCall -> bool
}.

(** A call to the API: a rejection ([inl]) or a value, and the API after. *)
Definition Api (A : Type) : Type := Remote -> (string + A) * Remote.

Definition listWebhooks : Api (list RemoteWebhook) :=
  fun r =>
    if rejects r ListWebhooks then (inl "Failed to list webhooks", r)
    else (inr (webhooks r), r).

Definition createWebhook (target : string) (eventTypes : list string)
  : Api RemoteWebhook :=
  fun r =>
    if rejects r (CreateWebhook target)
    then (inl "Failed to create webhook", r)
    else
      let wh := mkWebhook (next_id r) target eventTypes in
      (inr wh, mkRemote (webhooks r ++ [wh]) (S (next_id r)) (rejects r)).

Definition deleteWebhook (id : nat) : Api bool :=
  fun r =>
    if rejects r (DeleteWebhook id) then (inl "Failed to delete webhook", r)
    else
      (inr true,
       mkRemote
         (filter (fun wh => negb (Nat.eqb (webhook_id wh) id)) (webhooks r))
         (next_id r) (rejects r)).

(** [config.webhooks], which is also [this.config] of the server. *)
Record Config := mkConfig {
  enabled : bool;
  cfg_url : option string;
  cfg_path : option string;
  cfg_secret : option string
}.

Record World := mkWorld {
  this : WebhookServer;
  config : Config;
  remote : Remote
}.

(** [platform.saveWebhookConfig(path, secret)]. *)
Definition saveWebhookConfig (p s : string) (c : Config) : Config :=
  mkConfig (enabled c) (cfg_url c) (Some p) (Some s).

(** [getSupportedWebhookEvents()]. *)
Definition getSupportedWebhookEvents (accessories : list LockAccessory)
  : list string :=
  let baseEvents :=
    ["device.connected"; "device.disconnected"; "lock.locked";
     "lock.unlocked"; "device.low_battery";
     "device.battery_status_changed"]%string in
  if existsb supportsDoorSensor accessories
  then baseEvents ++ ["device.door_opened"; "device.door_closed"]%string
  else baseEvents.

(** The test of the cleanup loop:
    [webhook.url && this.config.url && webhook.url.startsWith(this.config.url)]. *)
Definition matches_base (c : Config) (wh : RemoteWebhook) : bool :=
  match cfg_url c with
  | Some base =>
      Js.truthy_string (wh_url wh) && Js.truthy_string base
      && String.prefix base (wh_url wh)
  | None => false
  end.

(** The [for] loop of [cleanupWebhook], over the subscriptions listed: a
    failed deletion is swallowed and the loop goes on. *)
Definition sweep (c : Config) (existing : list RemoteWebhook) (r : Remote)
  : Remote :=
  fold_left
    (fun r' wh =>
       if matches_base c wh then snd (deleteWebhook (webhook_id wh) r')
       else r')
    existing r.

(** [cleanupWebhook()]: a failed listing skips the cleanup. *)
Definition cleanupWebhook (c : Config) (r : Remote) : Remote :=
  match listWebhooks r with
  | (inl _, r1) => r1
  | (inr existingWebhooks, r1) => sweep c existingWebhooks r1
  end.

Definition set_webhookId (id : option nat) (s : WebhookServer)
  : WebhookServer :=
  mkServer (path s) (secret s) id (webhookUrl s) (server s).

(** [registerWebhook()]; every failure is caught and logged. *)
Definition registerWebhook (accessories : list LockAccessory) (w : World)
  : World :=
  match listWebhooks (remote w) with
  | (inl _, r1) => mkWorld (this w) (config w) r1
  | (inr existingWebhooks, r1) =>
      let same_url wh :=
        match webhookUrl (this w) with
        | Some u => String.eqb (wh_url wh) u
        | None => false
        end in
      match find same_url existingWebhooks with
      | Some existingWebhook =>
          mkWorld (set_webhookId (Some (webhook_id existingWebhook)) (this w))
            (config w) r1
      | None =>
          let r2 := cleanupWebhook (config w) r1 in
          let target :=
            match webhookUrl (this w) with
            | Some u => u
            | None => "null"%string
            end in
          match createWebhook target (getSupportedWebhookEvents accessories)
                  r2 with
          | (inl _, r3) => mkWorld (this w) (config w) r3
          | (inr webhook, r3) =>
              let p := match path (this w) with Some x => x
                                              | None => "null"%string end in
              let s := match secret (this w) with Some x => x
                                                | None => "null"%string end in
              mkWorld (set_webhookId (Some (webhook_id webhook)) (this w))
                (saveWebhookConfig p s (config w)) r3
          end
      end
  end.

(** [start()], given what [crypto.randomUUID()] and
    [crypto.randomBytes(32).toString('hex')] return and whether
    [server.listen] succeeds. The boolean is true when [start] throws. *)
Definition start (uuid secretHex : string) (listen_ok : bool)
  (accessories : list LockAccessory) (w : World) : World * bool :=
  if negb (enabled (config w))
  then
    (mkWorld
       (mkServer None None (webhookId (this w)) (webhookUrl (this w))
          (server (this w)))
       (saveWebhookConfig "" "" (config w))
       (cleanupWebhook (config w) (remote w)), false)
  else
    match cfg_url (config w) with
    | None => (w, false)
    | Some base =>
        if negb (Js.truthy_string base) then (w, false)
        else
          let newPath := ("/" ++ uuid)%string in
          let s1 :=
            mkServer (Some newPath) (Some secretHex) (webhookId (this w))
              (Some (base ++ newPath)%string) true in
          if listen_ok
          then (registerWebhook accessories (mkWorld s1 (config w) (remote w)),
                false)
          else (mkWorld s1 (config w) (remote w), true)
    end.

(** [stop()]. *)
Definition stop (w : World) : World :=
  mkWorld
    (mkServer None None None (webhookUrl (this w)) false)
    (saveWebhookConfig "" "" (config w))
    (cleanupWebhook (config w) (remote w)).

(** A run of the manager: starts, each with what the random generators gave
    it, and stops. *)
Inductive Op :=
| Start (uuid secretHex : string) (listen_ok : bool)
| Stop.

Definition exec (accessories : list LockAccessory) (w : World) (o : Op)
  : World :=
  match o with
  | Start uuid secretHex listen_ok =>
      fst (start uuid secretHex listen_ok accessories w)
  | Stop => stop w
  end.

Definition run (accessories : list LockAccessory) (ops : list Op) (w : World)
  : World :=
  fold_left (exec accessories) ops w.

(** The subscriptions that target the configured base URL. *)
Definition active_for_base (w : World) : list RemoteWebhook :=
  filter (matches_base (config w)) (webhooks (remote w)).



End Lifecycle.

(** ** lockAccessory.js: [setLockTargetState] and [executeLockCommand]

    The two functions are asynchronous. A call runs until its next [await];
    the callers of one accessory interleave at these points only. The world
    below holds the accessory, the callers suspended at an [await] in order
    of arrival, and the command operations whose promise is not settled.
    When a promise settles, the callers that await it are resumed in the
    order in which they started to wait, each running to its next [await]
    or to its end: the owner of a command promise started to wait when it
    created the promise, hence before any other caller. *)
Module Command.
Import Accessory.

(** An [executeLockCommand] call that has not settled: its remote call is
    outstanding ([Calling]) or, after a successful reply, it sits in the
    two-second delay ([Settling]). *)
Inductive Phase := Calling | Settling.

Record Operation := mkOp {
  op_promise : nat;
  op_shouldLock : bool;
  op_phase : Phase
}.

(** Where a suspended [setLockTargetState] call waits. *)
Inductive Caller :=
| AwaitPrevious (p : nat) (shouldLock : bool)  (* line 631 *)
| AwaitOwn (p : nat).                          (* line 644 *)

Inductive Exit := Returned | Threw.

Record World := mkWorld {
  accessory : LockAccessory;
  callers : list Caller;
  operations : list Operation;
  next_promise : nat;
  remote_calls : nat;            (* lock/unlock requests issued so far *)
  exits : list Exit              (* calls that have ended, oldest first *)
}.

Inductive Event :=
| Request (shouldLock : bool)    (* HomeKit calls setLockTargetState *)
| RemoteReply (p : nat) (ok : bool)
| TimeoutFires (p : nat)         (* the 15 s timer of executeLockCommand *)
| DelayElapsed (p : nat).        (* the 2 s timer after a success *)

(** Lines 639-644: the flag is raised, [executeLockCommand] starts and
    issues the remote call, and the caller waits for its promise. *)
Definition startCommand (shouldLock : bool) (w : World) : World :=
  let p := next_promise w in
  mkWorld (set_command true (Some p) (accessory w))
    (callers w ++ [AwaitOwn p])
    (operations w ++ [mkOp p shouldLock Calling])
    (S p) (S (remote_calls w)) (exits w).

Definition pending (p : nat) (w : World) : option Operation :=
  find (fun o => Nat.eqb (op_promise o) p) (operations w).

(** The state that the resumed callers thread through: the accessory, the
    callers still suspended, the operations, the promise counter, the
    remote calls issued and the exits. *)
Definition resume (fulfilled : bool) (p : nat) (w : World) (c : Caller)
  : World :=
  match c with
  | AwaitOwn q =>
      if Nat.eqb q p
      then (* the finally block, then return or rethrow *)
        mkWorld (set_command false None (accessory w)) (callers w)
          (operations w) (next_promise w) (remote_calls w)
          (exits w ++ [if fulfilled then Returned else Threw])
      else
        mkWorld (accessory w) (callers w ++ [c]) (operations w)
          (next_promise w) (remote_calls w) (exits w)
  | AwaitPrevious q shouldLock =>
      if Nat.eqb q p
      then
        if fulfilled
        then startCommand shouldLock w
        else (* the catch block throws *)
          mkWorld (accessory w) (callers w) (operations w) (next_promise w)
            (remote_calls w) (exits w ++ [Threw])
      else
        mkWorld (accessory w) (callers w ++ [c]) (operations w)
          (next_promise w) (remote_calls w) (exits w)
  end.

(** The command promise [p] settles: its operation is over and the callers
    are resumed in order. *)
Definition settle (fulfilled : bool) (p : nat) (w : World) : World :=
  fold_left (resume fulfilled p) (callers w)
    (mkWorld (accessory w) []
       (filter (fun o => negb (Nat.eqb (op_promise o) p)) (operations w))
       (next_promise w) (remote_calls w) (exits w)).

Definition set_phase (p : nat) (ph : Phase) (ops : list Operation)
  : list Operation :=
  map (fun o => if Nat.eqb (op_promise o) p
                then mkOp p (op_shouldLock o) ph else o) ops.

(** One event; [None] when the event cannot occur in this world: a reply
    or a timer for a promise that is not pending in that phase, or a call
    that finds the flag raised on a settled promise (which no run reaches,
    see [request_enabled]). *)
Definition step (e : Event) (w : World) : option World :=
  match e with
  | Request shouldLock =>
      if isCommandInProgress (accessory w)
      then
        match commandPromise (accessory w) with
        | Some p =>
            match pending p w with
            | Some _ =>
                Some (mkWorld (accessory w)
                        (callers w ++ [AwaitPrevious p shouldLock])
                        (operations w) (next_promise w) (remote_calls w)
                        (exits w))
            | None => None
            end
        | None => Some (startCommand shouldLock w)   (* [await null] *)
        end
      else Some (startCommand shouldLock w)
  | RemoteReply p ok =>
      match pending p w with
      | Some (mkOp _ shouldLock Calling) =>
          if ok
          then
            (* lines 668-681, then the delay starts *)
            Some (mkWorld
                    (updateValue
                       [LockCurrentState shouldLock; LockTargetState shouldLock]
                       (set_isLocked shouldLock (accessory w)))
                    (callers w) (set_phase p Settling (operations w))
                    (next_promise w) (remote_calls w) (exits w))
          else Some (settle false p w)
      | _ => None
      end
  | TimeoutFires p =>
      match pending p w with
      | Some (mkOp _ _ Calling) => Some (settle false p w)
      | _ => None
      end
  | DelayElapsed p =>
      match pending p w with
      | Some (mkOp _ _ Settling) => Some (settle true p w)
      | _ => None
      end
  end.

Fixpoint run (events : list Event) (w : World) : option World :=
  match events with
  | [] => Some w
  | e :: rest =>
      match step e w with
      | Some w' => run rest w'
      | None => None
      end
  end.

(** No call of [setLockTargetState] is active. *)
Definition quiet (a : LockAccessory) : World :=
  mkWorld (set_command false None a) [] [] 0 0 [].

(** The worlds that the events lead to when at most [bound] calls of
    [setLockTargetState] are active at a time. *)
Inductive reachable (bound : nat) : World -> Prop :=
| reach_quiet : forall a, reachable bound (quiet a)
| reach_step : forall w e w',
    reachable bound w ->
    step e w = Some w' ->
    (List.length (callers w') <= bound)%nat ->
    reachable bound w'.

(** The remote lock/unlock calls that have not been answered. A call whose
    command has timed out counts as over: its promise is rejected then, and
    the request itself is destroyed by the socket timeout of [_request]. *)
Definition calls_in_flight (w : World) : list Operation :=
  filter (fun o => match op_phase o with Calling => true | Settling => false end)
    (operations w).

(** The worlds with at most one command: nobody is active; or one caller
    waits for its own command; or, besides, a second caller waits for that
    same command. *)
Definition serial (w : World) : Prop :=
  (callers w = [] /\ operations w = []
   /\ isCommandInProgress (accessory w) = false)
  \/ (exists p b ph,
        callers w = [AwaitOwn p] /\ operations w = [mkOp p b ph]
        /\ isCommandInProgress (accessory w) = true
        /\ commandPromise (accessory w) = Some p)
  \/ (exists p b ph b',
        callers w = [AwaitOwn p; AwaitPrevious p b']
        /\ operations w = [mkOp p b ph]
        /\ isCommandInProgress (accessory w) = true
        /\ commandPromise (accessory w) = Some p).

(** The flag is raised only while the command of the stored promise is in
    flight. *)
Definition flag_backed (w : World) : Prop :=
  isCommandInProgress (accessory w) = true ->
  exists p, commandPromise (accessory w) = Some p /\ pending p w <> None.

(** Every command in flight has its owner among the suspended callers, and
    the flag is backed by a command. *)
Definition owned (w : World) : Prop :=
  (forall o, In o (operations w) ->
             In (AwaitOwn (op_promise o)) (callers w))
  /\ flag_backed w.

End Command.

(** ** Concrete requests and worlds, on which the theorems are run *)
Module Samples.
Import Accessory Webhook.

(** The body [{"event_type":"lock.locked","device_id":"d1"}]. *)
Definition locked_body : string :=
  "{" ++ dq ++ "event_type" ++ dq ++ ":" ++ dq ++ "lock.locked" ++ dq ++ ","
      ++ dq ++ "device_id" ++ dq ++ ":" ++ dq ++ "d1" ++ dq ++ "}".

Definition locked_payload : Payload :=
  mkPayload (Some "lock.locked") (Some "d1") None None.

(** A [JSON.parse] that knows the body above and the literal [null]. *)
Definition parse (s : string) : option JsValue :=
  if String.eqb s locked_body then Some (JsObject locked_payload)
  else if String.eqb s "null" then Some JsNull
  else None.

(** The character [c], [n] times. *)
Fixpoint replicate (n : nat) (c : ascii) : string :=
  match n with
  | O => EmptyString
  | S k => String c (replicate k c)
  end.

(** A listening server whose session secret is ["s"]. *)
Definition listening : WebhookServer :=
  mkServer (Some "/3f2a") (Some "s") (Some 7%nat)
    (Some "https://hb.example/3f2a") true.

Definition post (signature : option string) (content : string) : Request :=
  mkRequest "POST" "/3f2a" signature None content.

(** A stopped manager, enabled on the base URL [https://hb.example], and a
    remote API that answers every call and still holds two subscriptions of
    earlier runs and one of another integration. *)
Definition stale_world : Lifecycle.World :=
  Lifecycle.mkWorld
    (mkServer None None None None false)
    (Lifecycle.mkConfig true (Some "https://hb.example") None None)
    (Lifecycle.mkRemote
       [Lifecycle.mkWebhook 1 "https://hb.example/old-1" [];
        Lifecycle.mkWebhook 2 "https://hb.example/old-2" [];
        Lifecycle.mkWebhook 3 "https://other.example/hook" []]
       4 (fun _ => false)).

End Samples.

(** ** lockAccessory.js: the battery cache and the read handlers of HomeKit *)
Module Reads.
Import Accessory.

(** [isBatteryCacheValid()], at clock reading [now]. *)
Definition isBatteryCacheValid (now : Z) (a : LockAccessory) : bool :=
  (now - lastUpdated (batteryCache a) <? cacheTimeout (batteryCache a))%Z.

(** [status.battery_level || 100]. *)
Definition or_100 (raw : option Q) : Q :=
  match raw with
  | Some v => if Js.truthy_number v then v else 100
  | None => 100
  end.

(** What a battery read hands back: [{ level, isLow }], the accessory after
    it, and the device ids for which [getLockStatus] was called. *)
Record BatteryRead := mkRead {
  read_level : Q;
  read_isLow : bool;
  read_accessory : LockAccessory;
  read_queries : list string
}.

(** [getBatteryLevelFromAPI()]. [now] is the clock read by the validity
    test, [getLockStatus] the answer of the API ([inl] a rejection) and
    [now'] the clock read by [updateBatteryCache] after it. *)
Definition getBatteryLevelFromAPI (now : Z)
  (getLockStatus : string -> string + LockStatus) (now' : Z)
  (a : LockAccessory) : BatteryRead :=
  let cached q :=
    mkRead (level (batteryCache a)) (isLow (batteryCache a)) a q in
  if isBatteryCacheValid now a then cached []
  else
    match getLockStatus (deviceId a) with
    | inr status =>
        let lvl := or_100 (battery_level status) in
        let low := Js.Qlt_bool lvl 20 in
        mkRead lvl low (updateBatteryCache now' lvl low a) [deviceId a]
    | inl _ => cached [deviceId a]
    end.

(** [getBatteryLevel()]: the level returned, the accessory after the call
    and the queries made. *)
Definition getBatteryLevel (now : Z)
  (getLockStatus : string -> string + LockStatus) (now' : Z)
  (a : LockAccessory) : Q * LockAccessory * list string :=
  let batteryData := getBatteryLevelFromAPI now getLockStatus now' a in
  let a' :=
    set_battery (read_level batteryData) (read_isLow batteryData)
      (read_accessory batteryData) in
  (batteryLevel a', a', read_queries batteryData).

(** [getStatusLowBattery()]: true stands for [BATTERY_LEVEL_LOW]. *)
Definition getStatusLowBattery (now : Z)
  (getLockStatus : string -> string + LockStatus) (now' : Z)
  (a : LockAccessory) : bool * LockAccessory * list string :=
  let batteryData := getBatteryLevelFromAPI now getLockStatus now' a in
  let a' :=
    set_battery (read_level batteryData) (read_isLow batteryData)
      (read_accessory batteryData) in
  (isLowBattery a', a', read_queries batteryData).

(** [getLockTargetState()] and [getContactSensorState()]: true stands for
    [SECURED] and for [CONTACT_NOT_DETECTED]. *)
Definition getLockTargetState (a : LockAccessory) : bool := isLocked a.

Definition getContactSensorState (a : LockAccessory) : bool := isDoorOpen a.

(** [getLockCurrentState()]. [device] is what [getDevice] settles with
    inside [getLockStatus], whose result always carries a boolean [locked];
    [timed_out] says that the five-second timer won the race. [now] is the
    clock read while the battery is stored; [retry] and [now'] serve the
    call of [getBatteryLevelFromAPI] made when the status has no numeric
    battery level. The boolean returned is true for [SECURED]. *)
Definition getLockCurrentState (device : string + SeamAPI.Device)
  (timed_out : bool) (now : Z)
  (retry : string -> string + LockStatus) (now' : Z)
  (a : LockAccessory) : bool * LockAccessory :=
  let cached :=
    (isLocked a,
     updateValue [LockCurrentState (isLocked a); LockTargetState (isLocked a)]
       a) in
  if timed_out then cached
  else
    match SeamAPI.getLockStatus device with
    | inl _ => cached
    | inr status =>
        let a1 := set_isLocked (SeamAPI.or_false (locked status)) a in
        let a2 :=
          match battery_level status with
          | Some v =>
              let low := Js.Qlt_bool v 20 in
              updateBatteryCache now v low (set_battery v low a1)
          | None =>
              let batteryData := getBatteryLevelFromAPI now retry now' a1 in
              set_battery (read_level batteryData) (read_isLow batteryData)
                (read_accessory batteryData)
          end in
        let state := isLocked a2 in
        (state,
         updateValue
           [LockCurrentState state; LockTargetState state;
            BatteryLevel (batteryLevel a2);
            StatusLowBattery (isLowBattery a2)] a2)
    end.

(** The battery fields of the accessory and its cache say the same, and the
    low-battery flag is the test of the level against 20. *)
Definition coherent (a : LockAccessory) : Prop :=
  level (batteryCache a) = batteryLevel a
  /\ isLow (batteryCache a) = isLowBattery a
  /\ isLowBattery a = Js.Qlt_bool (batteryLevel a) 20.

End Reads.

(** ** The earlier revision of platform.js and webhookServer.js, whose
    polling loop and webhook handler call [updateState] *)
Module Direct.
Import Accessory Webhook.

Section Polling.

(** The outcome of the [getDevice] call of iteration [i], and the clock read
    by [updateState] in that iteration. *)
Variable getDevice : nat -> string -> string + SeamAPI.Device.
Variable Date_now : nat -> Z.

(** The body of the [for] loop: a rejection is logged and the accessory is
    left as it is. *)
Definition pollOne (i : nat) (accessory : LockAccessory) : LockAccessory :=
  match SeamAPI.getLockStatus (getDevice i (deviceId accessory)) with
  | inr status => updateState (Date_now i) status accessory
  | inl _ => accessory
  end.

Fixpoint pollFrom (i : nat) (accessories : list LockAccessory)
  : list LockAccessory :=
  match accessories with
  | [] => []
  | accessory :: rest => pollOne i accessory :: pollFrom (S i) rest
  end.

Definition pollDevices (accessories : list LockAccessory)
  : list LockAccessory :=
  pollFrom 0 accessories.

End Polling.

(** [accessory.updateState(fields)] as the method that the switch calls. *)
Definition direct (now : Z) : Reconciler.Method :=
  fun accessory fields _ _ => updateState now fields accessory.

(** [processWebhook(payload)] of the earlier revision: the same tests and
    the same switch, without event time and watermark. *)
Definition processWebhook (now : Z) (payload : JsValue)
  (accessories : list LockAccessory) : list LockAccessory :=
  match payload with
  | JsNull => accessories
  | JsOther => accessories
  | JsObject p =>
      match event_type p with
      | None => accessories
      | Some eventType =>
          if negb (Js.truthy_string eventType) then accessories
          else
            update_first (is_device (device_id p))
              (dispatch (direct now) eventType p None) accessories
      end
  end.

End Direct.

(** ** webhookServer.js: [deleteWebhook()], the manual removal *)
Module Manual.
Import Webhook Lifecycle.

(** The address that [registerWebhook] looks for and registers:
    [this.webhookUrl], sent as [null] while it is not set. *)
Definition target_of (s : WebhookServer) : string :=
  match webhookUrl s with
  | Some u => u
  | None => "null"
  end.

(** The boolean is the value returned. *)
Definition deleteWebhook (w : World) : World * bool :=
  match webhookId (this w) with
  | Some id =>
      match Lifecycle.deleteWebhook id (remote w) with
      | (inr _, r) =>
          (mkWorld (set_webhookId None (this w)) (config w) r, true)
      | (inl _, r) => (mkWorld (this w) (config w) r, false)
      end
  | None => (w, false)
  end.

End Manual.
(** ** The callers of [setLockTargetState], counted *)
Module Waiting.
Import Accessory Command.

(** The lock state and what has been pushed to HomeKit are the same in the
    two accessories. *)
Definition same_state (a a' : LockAccessory) : Prop :=
  isLocked a' = isLocked a
  /\ characteristics a' = characteristics a.

(** The caller is suspended on the promise [p]. *)
Definition awaits (p : nat) (c : Caller) : bool :=
  match c with
  | AwaitOwn q => Nat.eqb q p
  | AwaitPrevious q _ => Nat.eqb q p
  end.

(** The callers that wait for a command of another call (line 631). *)
Definition queued (cs : list Caller) : list Caller :=
  filter (fun c => match c with
                   | AwaitPrevious _ _ => true
                   | AwaitOwn _ => false
                   end) cs.

(** The calls of [setLockTargetState] among the events. *)
Definition requests (events : list Event) : list Event :=
  filter (fun e => match e with
                   | Request _ => true
                   | _ => false
                   end) events.

End Waiting.

(* ===================================================================== *)
(** * Part II: theorems                                                    *)
(* ===================================================================== *)

(** ** The hash function, on published test vectors *)
Module CryptoFacts.

(** FIPS 180-4, one block and two blocks. *)
Example sha256_one_block :
  Crypto.sha256_hex "abc" = "ba7816bf8f01cfea414140de5dae2223b00361a396177a9cb410ff61f20015ad".
Proof. vm_compute. reflexivity. Qed.

Example sha256_two_blocks :
  Crypto.sha256_hex "abcdbcdecdefdefgefghfghighijhijkijkljklmklmnlmnomnopnopq"
  = "248d6a61d20638b8e5c026930c3e6039a33ce45964ff2167f6ecedd419db06c1".
Proof. vm_compute. reflexivity. Qed.

(** RFC 4231, test case 2. *)
Example hmac_rfc4231_case2 :
  Crypto.hmac_sha256_hex "Jefe" "what do ya want for nothing?"
  = "5bdcc146bf60754e6a042426089575c75a003f089d2739839dec58b964ec3843".
Proof. vm_compute. reflexivity. Qed.

(** A key longer than a block is hashed first. *)
Example hmac_long_key :
  Crypto.hmac_sha256_hex (Samples.replicate 80 "k") "Hash the key first"
  = "c3f5bb2fb5fe9aa49e803f96400e6118ce8ee0d7d9314097f301ec1c07008aea".
Proof. vm_compute. reflexivity. Qed.

End CryptoFacts.

(** ** Strings *)
Module StringFacts.
Import Webhook.

Lemma prefix_append : forall p s, String.prefix p (p ++ s)%string = true.
Proof.
  induction p as [|c p IH]; intros s; simpl.
  - now destruct s.
  - destruct (ascii_dec c c) as [_|N]; [apply IH | now elim N].
Qed.

Lemma drop_append : forall p s, drop (String.length p) (p ++ s)%string = s.
Proof.
  induction p as [|c p IH]; intros s; simpl.
  - now destruct s.
  - apply IH.
Qed.

Lemma replace_first_prefixed : forall p s,
  replace_first p (p ++ s)%string = s.
Proof.
  intros p s. destruct p as [|c p].
  - destruct s; reflexivity.
  - cbn [replace_first append]. 
    change (String c (p ++ s)%string) with (String c p ++ s)%string.
    rewrite prefix_append. apply drop_append.
Qed.


End StringFacts.

(** ** [updateState] and a command in progress *)
Module AccessoryFacts.
Import Accessory.

Lemma updateLockField_locked : forall state a b,
  locked state = Some b -> isLocked (updateLockField state a) = b.
Proof.
  intros state a b H. unfold updateLockField. rewrite H.
  destruct (Bool.eqb b (isLocked a)) eqn:E; simpl.
  - symmetry. now apply Bool.eqb_prop.
  - reflexivity.
Qed.

Lemma updateBatteryField_level : forall now state a v,
  battery_level state = Some v ->
  batteryLevel (updateBatteryField now state a) == v.
Proof.
  intros now state a v H. unfold updateBatteryField. rewrite H.
  destruct (Qeq_bool v (batteryLevel a)) eqn:E; simpl.
  - symmetry. now apply Qeq_bool_iff.
  - reflexivity.
Qed.

Lemma updateDoorField_open : forall state a d,
  door_open state = Some d -> contactService a = true ->
  isDoorOpen (updateDoorField state a) = d.
Proof.
  intros state a d H Hc. unfold updateDoorField. rewrite H, Hc.
  destruct (Bool.eqb d (isDoorOpen a)) eqn:E; simpl.
  - symmetry. now apply Bool.eqb_prop.
  - reflexivity.
Qed.

Lemma updateBatteryField_frame : forall now state a,
  isLocked (updateBatteryField now state a) = isLocked a
  /\ isDoorOpen (updateBatteryField now state a) = isDoorOpen a
  /\ contactService (updateBatteryField now state a) = contactService a.
Proof.
  intros now state a. unfold updateBatteryField.
  destruct (battery_level state) as [v|]; [|auto].
  destruct (negb (Qeq_bool v (batteryLevel a))); auto.
Qed.

Lemma updateDoorField_frame : forall state a,
  isLocked (updateDoorField state a) = isLocked a
  /\ batteryLevel (updateDoorField state a) = batteryLevel a.
Proof.
  intros state a. unfold updateDoorField.
  destruct (door_open state) as [d|]; [|auto].
  destruct (contactService a && negb (Bool.eqb d (isDoorOpen a))); auto.
Qed.

Lemma updateLockField_frame : forall state a,
  contactService (updateLockField state a) = contactService a.
Proof.
  intros state a. unfold updateLockField.
  destruct (locked state) as [b|]; [|auto].
  destruct (negb (Bool.eqb b (isLocked a))); auto.
Qed.

(** C2, as the specification states it, fails on [updateState]: with a
    command in progress the battery level carried by an update is not
    applied. The accessory below is the constructor's, with the command flag
    raised; the update carries [locked = false] and [battery_level = 50]. *)
Lemma updateState_in_flight_drops_battery :
  let a := set_command true (Some 0%nat) (new_accessory "d1") in
  let u := mkStatus (Some false) (Some 50) None None in
  isCommandInProgress a = true
  /\ battery_level u = Some 50
  /\ batteryLevel (updateState 1000 u a) == 100
  /\ ~ batteryLevel (updateState 1000 u a) == 50.
Proof.
  cbv zeta. repeat split; try reflexivity. intro H. discriminate H.
Qed.

(** C2 (amended): while [isCommandInProgress] is true, [updateState] is
    skipped as a whole: the [locked] field is rejected and so are the
    battery and door fields of the same update, the accessory is unchanged.
    With the flag clear the fields present are applied: [locked], the
    battery level, and the door state when the accessory has a contact
    service. *)
Theorem updateState_command_precedence : forall now state a,
  (isCommandInProgress a = true -> updateState now state a = a)
  /\ (isCommandInProgress a = false ->
      (forall b, locked state = Some b ->
                 isLocked (updateState now state a) = b)
      /\ (forall v, battery_level state = Some v ->
                    batteryLevel (updateState now state a) == v)
      /\ (forall d, door_open state = Some d -> contactService a = true ->
                    isDoorOpen (updateState now state a) = d)).
Proof.
  intros now state a. unfold updateState. split; intros Hf; rewrite Hf.
  - reflexivity.
  - repeat split.
    + intros b Hb.
      destruct (updateDoorField_frame state
                  (updateBatteryField now state (updateLockField state a)))
        as [-> _].
      destruct (updateBatteryField_frame now state (updateLockField state a))
        as [-> _].
      now apply updateLockField_locked.
    + intros v Hv.
      destruct (updateDoorField_frame state
                  (updateBatteryField now state (updateLockField state a)))
        as [_ ->].
      now apply updateBatteryField_level.
    + intros d Hd Hc. apply updateDoorField_open; [assumption|].
      destruct (updateBatteryField_frame now state (updateLockField state a))
        as [_ [_ ->]].
      now rewrite updateLockField_frame.
Qed.

(** The amended C2 at an accessory with a command in progress and at the
    same accessory with the flag clear. *)
Lemma updateState_command_precedence_witness :
  updateState 1000 (mkStatus (Some false) (Some 50) None None)
    (set_command true (Some 0%nat) (new_accessory "d1"))
  = set_command true (Some 0%nat) (new_accessory "d1")
  /\ batteryLevel
       (updateState 1000 (mkStatus (Some false) (Some 50) None None)
          (new_accessory "d1")) == 50.
Proof.
  split.
  - apply (proj1 (updateState_command_precedence 1000
                    (mkStatus (Some false) (Some 50) None None)
                    (set_command true (Some 0%nat) (new_accessory "d1")))).
    reflexivity.
  - apply (proj2 (updateState_command_precedence 1000
                    (mkStatus (Some false) (Some 50) None None)
                    (new_accessory "d1"))); reflexivity.
Defined.

End AccessoryFacts.

(** ** [getLockStatus]: the battery level *)
Module SeamAPIFacts.
Import Accessory SeamAPI.

Lemma Math_round_bounds : forall q : Q,
  0 <= q -> q <= 100 -> (0 <= Js.Math_round q <= 100)%Z.
Proof.
  intros q H0 H100. unfold Js.Math_round. split.
  - change 0%Z with (Qfloor (0 + (1 # 2))).
    apply Qfloor_resp_le. now apply Qplus_le_l.
  - change 100%Z with (Qfloor (100 + (1 # 2))).
    apply Qfloor_resp_le. now apply Qplus_le_l.
Qed.

Lemma normalizeBattery_fraction : forall v : Q,
  0 < v -> v <= 1 ->
  normalizeBattery (Some v) = inject_Z (Js.Math_round (v * 100)).
Proof.
  intros v Hpos Hle. unfold normalizeBattery, Js.truthy_number.
  destruct (Qeq_bool v 0) eqn:E.
  - apply Qeq_bool_iff in E. rewrite E in Hpos. discriminate Hpos.
  - simpl. apply Qle_bool_iff in Hle. now rewrite Hle.
Qed.

Lemma normalizeBattery_percent : forall v : Q,
  1 < v -> normalizeBattery (Some v) = v.
Proof.
  intros v Hgt. unfold normalizeBattery, Js.truthy_number.
  destruct (Qeq_bool v 0) eqn:E.
  - apply Qeq_bool_iff in E. rewrite E in Hgt. discriminate Hgt.
  - simpl. destruct (Qle_bool v 1) eqn:L; [|reflexivity].
    apply Qle_bool_iff in L. exfalso. now apply (Qlt_not_le 1 v).
Qed.

Lemma battery_of_normalize : forall raw,
  battery_of raw = Some (normalizeBattery raw).
Proof. reflexivity. Qed.

(** C9, as the specification states it, fails on [getLockStatus]: a remote
    value above 100 is returned unchanged, outside the range 0-100, and the
    remote value 0, which is [<= 1], is not mapped to [round(0 * 100) = 0]
    but to 100. *)
Lemma getLockStatus_battery_out_of_claim :
  (battery_of (Some 150) = Some 150 /\ ~ 150 <= 100)
  /\ (battery_of (Some 0) = Some 100
      /\ ~ 100 == inject_Z (Js.Math_round (0 * 100))).
Proof.
  split; split; try reflexivity.
  - intro H. unfold Qle in H. simpl in H. lia.
  - intro H. vm_compute in H. discriminate H.
Qed.

(** C9 (amended): for a remote [battery_level] [v] with [0 < v <= 1],
    [getLockStatus] returns [round(v * 100)], an integer between 0 and 100;
    for [v > 1] it returns [v] unchanged, so the result is within 0-100 only
    when the remote value is; without a remote value it returns 100. *)
Theorem getLockStatus_battery_normalization : forall v : Q,
  (0 < v -> v <= 1 ->
     battery_of (Some v) = Some (inject_Z (Js.Math_round (v * 100)))
     /\ (0 <= Js.Math_round (v * 100) <= 100)%Z)
  /\ (1 < v -> battery_of (Some v) = Some v)
  /\ battery_of None = Some 100.
Proof.
  intros v. repeat split.
  - rewrite battery_of_normalize. f_equal.
    now apply normalizeBattery_fraction.
  - apply Math_round_bounds.
    + apply Qmult_le_0_compat; [now apply Qlt_le_weak | discriminate].
    + setoid_replace (100 : Q) with (1 * 100) at 2 by reflexivity.
      apply Qmult_le_compat_r; [assumption | discriminate].
  - apply Math_round_bounds.
    + apply Qmult_le_0_compat; [now apply Qlt_le_weak | discriminate].
    + setoid_replace (100 : Q) with (1 * 100) at 2 by reflexivity.
      apply Qmult_le_compat_r; [assumption | discriminate].
  - intros Hgt. rewrite battery_of_normalize. f_equal.
    now apply normalizeBattery_percent.
Qed.

(** The amended C9 at the fraction 17/20 and at the percentage 85. *)
Lemma getLockStatus_battery_normalization_witness :
  battery_of (Some (17 # 20)) = Some (inject_Z 85)
  /\ battery_of (Some 85) = Some 85.
Proof.
  split.
  - apply (proj1 (getLockStatus_battery_normalization (17 # 20)));
      [reflexivity | discriminate].
  - apply (proj1 (proj2 (getLockStatus_battery_normalization 85))).
    reflexivity.
Defined.

End SeamAPIFacts.

(** ** [pollDevices]: errors stay with the device that raised them *)
Module PlatformFacts.
Import Accessory Reconciler Platform.

Section Polling.

Variable updateStateWithPriority : Method.
Variable getLockStatus : nat -> string -> PollOutcome.
Variable Date_now : nat -> Z.

Let pollFrom := pollFrom updateStateWithPriority getLockStatus Date_now.
Let pollOne := pollOne updateStateWithPriority getLockStatus Date_now.

Lemma pollFrom_length : forall accessories i,
  List.length (pollFrom i accessories) = List.length accessories.
Proof.
  induction accessories as [|a rest IH]; intros i; simpl.
  - reflexivity.
  - f_equal. apply IH.
Qed.

Lemma pollFrom_nth : forall accessories i k a,
  nth_error accessories k = Some a ->
  nth_error (pollFrom i accessories) k = Some (pollOne (i + k) a).
Proof.
  induction accessories as [|x rest IH]; intros i k a H.
  - destruct k; discriminate H.
  - destruct k as [|k]; simpl in *.
    + injection H as ->. now rewrite Nat.add_0_r.
    + rewrite (IH (S i) k a H). now rewrite Nat.add_succ_r.
Qed.

End Polling.

(** C8: in a cycle of [pollDevices], whatever [updateStateWithPriority]
    does with a good status: every accessory is queried, in order; an
    accessory whose query throws or returns no status object is left as it
    was; and every accessory whose query returns a status object is updated
    from it, also when queries before it failed. *)
Theorem pollDevices_error_isolation :
  forall (updateStateWithPriority : Method)
         (getLockStatus : nat -> string -> PollOutcome)
         (Date_now : nat -> Z) (accessories : list LockAccessory),
  let result :=
    pollDevices updateStateWithPriority getLockStatus Date_now accessories in
  snd result = map deviceId accessories
  /\ List.length (fst result) = List.length accessories
  /\ forall k a,
       nth_error accessories k = Some a ->
       (failed (getLockStatus k (deviceId a)) ->
          nth_error (fst result) k = Some a)
       /\ (forall status,
             getLockStatus k (deviceId a) = PollStatus status ->
             nth_error (fst result) k
             = Some (updateStateWithPriority a status polling
                       (Some (Date_now k)))).
Proof.
  intros upd oracle clock accessories result. subst result.
  unfold pollDevices. simpl. split; [reflexivity|]. split.
  - apply pollFrom_length.
  - intros k a Hk.
    pose proof (pollFrom_nth upd oracle clock accessories 0 k a Hk) as Hn.
    simpl in Hn. split.
    + intros Hfail. rewrite Hn. f_equal. unfold Platform.pollOne.
      destruct (oracle k (deviceId a)); [reflexivity | reflexivity |].
      destruct Hfail.
    + intros status Hs. rewrite Hn. f_equal. unfold Platform.pollOne.
      now rewrite Hs.
Qed.

(** C8 on a cycle over three devices: the query for the second throws, the
    one for the third returns a value that is not an object. *)
Lemma pollDevices_error_isolation_witness :
  let accs := [new_accessory "d1"; new_accessory "d2"; new_accessory "d3"] in
  let oracle := fun (k : nat) (_ : string) =>
    match k with
    | 0%nat => PollStatus (mkStatus (Some false) (Some 80) None None)
    | 1%nat => PollThrows "Request timeout"
    | _ => PollInvalid
    end in
  let result := pollDevices reconcile oracle (fun _ => 1000%Z) accs in
  nth_error (fst result) 1 = Some (new_accessory "d2")
  /\ nth_error (fst result) 2 = Some (new_accessory "d3")
  /\ nth_error (fst result) 0
     = Some (reconcile (new_accessory "d1")
               (mkStatus (Some false) (Some 80) None None) polling
               (Some 1000%Z)).
Proof.
  cbv zeta.
  pose proof (pollDevices_error_isolation reconcile
    (fun (k : nat) (_ : string) =>
       match k with
       | 0%nat => PollStatus (mkStatus (Some false) (Some 80) None None)
       | 1%nat => PollThrows "Request timeout"
       | _ => PollInvalid
       end)
    (fun _ => 1000%Z)
    [new_accessory "d1"; new_accessory "d2"; new_accessory "d3"]) as H.
  cbv zeta in H. destruct H as [_ [_ H]].
  split; [|split].
  - apply (proj1 (H 1%nat (new_accessory "d2") eq_refl)). exact I.
  - apply (proj1 (H 2%nat (new_accessory "d3") eq_refl)). exact I.
  - apply (proj2 (H 0%nat (new_accessory "d1") eq_refl)). reflexivity.
Defined.

End PlatformFacts.

(** ** The webhook receiver *)
Module WebhookFacts.
Import Accessory Reconciler Webhook.



Lemma find_update_first : forall {A} (p : A -> bool) (f : A -> A) l x,
  find p l = Some x -> p (f x) = true ->
  find p (update_first p f l) = Some (f x).
Proof.
  intros A p f l x. induction l as [|y rest IH]; intros Hfind Hp; simpl in *.
  - discriminate Hfind.
  - destruct (p y) eqn:E.
    + injection Hfind as ->. simpl. now rewrite Hp.
    + simpl. rewrite E. now apply IH.
Qed.

Section Receiver.

Variable JSON_parse : string -> option JsValue.
Variable updateStateWithPriority : Method.

Let dispatch := dispatch updateStateWithPriority.
Let processEvent := processEvent updateStateWithPriority.
Let processWebhook := processWebhook updateStateWithPriority.
Let processBody := processBody JSON_parse updateStateWithPriority.
Let handleRequest := handleRequest JSON_parse updateStateWithPriority.


Lemma processEvent_stale : forall eventType payload t l accessory,
  lastEventTime accessory = Some l -> l <> 0%Z -> (t <= l)%Z ->
  processEvent eventType payload (Some t) accessory = accessory.
Proof.
  intros e p t l a Hl Hnz Hle. unfold processEvent, Webhook.processEvent.
  rewrite Hl. simpl.
  apply Z.eqb_neq in Hnz. rewrite Hnz. apply Z.leb_le in Hle. now rewrite Hle.
Qed.


Lemma processWebhook_object : forall now p eventType accessories,
  event_type p = Some eventType -> Js.truthy_string eventType = true ->
  processWebhook now (JsObject p) accessories
  = update_first (is_device (device_id p))
      (processEvent eventType p (eventTimeOf now p)) accessories.
Proof.
  intros now p e accs He Ht. unfold processWebhook, Webhook.processWebhook.
  now rewrite He, Ht.
Qed.


End Receiver.



End WebhookFacts.

(** ** Responses of the receiver and the signature *)
Module ReceiverFacts.
Import Accessory Reconciler Webhook StringFacts.

(** *** The digest is lower-case hexadecimal and holds no ["sha256="] *)

Lemma hex_char_not_s : forall n : N,
  (n < 16)%N -> Ascii.eqb (Crypto.hex_char n) "s" = false.
Proof.
  intros n H. destruct n as [|p]; [reflexivity|].
  do 4 (try (destruct p as [p|p|]; try reflexivity)); lia.
Qed.

Lemma replace_first_hex : forall bytes,
  Forall (fun b => (b < 256)%N) bytes ->
  replace_first "sha256=" (Crypto.hex bytes) = Crypto.hex bytes.
Proof.
  induction 1 as [|b rest Hb _ IH].
  - reflexivity.
  - assert (H1 : (b / 16 < 16)%N)
      by (apply N.Div0.div_lt_upper_bound; exact Hb).
    assert (H2 : (b mod 16 < 16)%N) by (apply N.mod_lt; discriminate).
    apply hex_char_not_s in H1. apply hex_char_not_s in H2.
    cbn [Crypto.hex replace_first String.prefix].
    rewrite Ascii.eqb_sym in H1. rewrite Ascii.eqb_sym in H2.
    cbn [String.prefix]. 
    destruct (ascii_dec "s" (Crypto.hex_char (b / 16))) as [E|_];
      [rewrite E, Ascii.eqb_refl in H1; discriminate H1|].
    destruct (ascii_dec "s" (Crypto.hex_char (b mod 16))) as [E|_];
      [rewrite E, Ascii.eqb_refl in H2; discriminate H2|].
    now rewrite IH.
Qed.

Lemma bytes_of_word_small : forall n w,
  Forall (fun b => (b < 256)%N) (Crypto.bytes_of_word n w).
Proof.
  intros n w. unfold Crypto.bytes_of_word. apply Forall_forall.
  intros b Hb. apply in_map_iff in Hb. destruct Hb as [i [<- _]].
  apply N.mod_lt. discriminate.
Qed.

Lemma sha256_small : forall bytes,
  Forall (fun b => (b < 256)%N) (Crypto.sha256 bytes).
Proof.
  intros bytes. unfold Crypto.sha256. apply Forall_forall.
  intros b Hb. apply in_flat_map in Hb. destruct Hb as [w [_ Hb]].
  pose proof (bytes_of_word_small 4 w) as H.
  rewrite Forall_forall in H. now apply H.
Qed.

Lemma digest_has_no_prefix : forall key data,
  replace_first "sha256=" (Crypto.hmac_sha256_hex key data)
  = Crypto.hmac_sha256_hex key data.
Proof.
  intros key data. unfold Crypto.hmac_sha256_hex, Crypto.hmac_sha256.
  apply replace_first_hex. apply sha256_small.
Qed.

Lemma bytes_eqb_eq : forall a b, bytes_eqb a b = true <-> a = b.
Proof.
  induction a as [|x a IH]; destruct b as [|y b]; simpl; split;
    try discriminate; try reflexivity.
  - intros H. apply andb_true_iff in H. destruct H as [Hx Hab].
    apply Ascii.eqb_eq in Hx. apply IH in Hab. now subst.
  - intros H. injection H as -> ->. rewrite Ascii.eqb_refl. now apply IH.
Qed.

Lemma timingSafeEqual_true : forall a b,
  timingSafeEqual a b = Some true <-> a = b.
Proof.
  intros a b. unfold timingSafeEqual. split.
  - destruct (Nat.eqb (List.length a) (List.length b)); [|discriminate].
    intros H. injection H as H. now apply bytes_eqb_eq.
  - intros ->. rewrite Nat.eqb_refl. f_equal. now apply bytes_eqb_eq.
Qed.

Section Receiver.

Variable JSON_parse : string -> option JsValue.
Variable updateStateWithPriority : Method.

Let processBody := processBody JSON_parse updateStateWithPriority.
Let handleRequest := handleRequest JSON_parse updateStateWithPriority.

(** [verifySignature] of a server with a session secret, on a signature
    that is not empty: the two hexadecimal decodings are equal. *)
Lemma verifySignature_decoded : forall this key payload signature,
  secret this = Some key -> Js.truthy_string key = true ->
  Js.truthy_string signature = true ->
  (verifySignature this payload signature = true
   <-> Buffer_from_hex (replace_first "sha256=" signature)
       = Buffer_from_hex (Crypto.hmac_sha256_hex key payload)).
Proof.
  intros this key payload sig Hs Hk Hsig. unfold verifySignature.
  rewrite Hs, Hk, Hsig. simpl.
  destruct (timingSafeEqual
              (Buffer_from_hex (Crypto.hmac_sha256_hex key payload))
              (Buffer_from_hex (replace_first "sha256=" sig)))
    as [[|]|] eqn:E.
  - apply timingSafeEqual_true in E. split; [now intros _|reflexivity].
  - split; [discriminate|]. intros H. symmetry in H.
    apply timingSafeEqual_true in H. rewrite H in E. discriminate E.
  - split; [discriminate|]. intros H. symmetry in H.
    apply timingSafeEqual_true in H. rewrite H in E. discriminate E.
Qed.

Lemma signatureOf_truthy : forall req s,
  signatureOf req = Some s -> Js.truthy_string s = true.
Proof.
  intros req s. unfold signatureOf.
  destruct (Js.or_string (x_seam_signature req) (x_hub_signature_256 req))
    as [x|]; [|discriminate].
  destruct (Js.truthy_string x) eqn:E; [|discriminate].
  intros H. injection H as <-. exact E.
Qed.

Lemma handleRequest_on_path : forall this now req accessories,
  method req = "POST" -> path this = Some (url req) ->
  handleRequest this now req accessories
  = match signatureOf req with
    | Some signature =>
        if negb (verifySignature this (body req) signature)
        then (unauthorized, accessories)
        else processBody now req accessories
    | None => processBody now req accessories
    end.
Proof.
  intros this now req accs Hm Hp. unfold handleRequest, Webhook.handleRequest.
  rewrite Hm, Hp. rewrite !String.eqb_refl. reflexivity.
Qed.

(** The response for every request: 404 off the path, 401 on a signature
    that does not verify, otherwise what the body gives. *)
Lemma handleRequest_mapping : forall this now req accessories,
  let r := handleRequest this now req accessories in
  (method req <> "POST" \/ path this <> Some (url req) ->
     r = (not_found, accessories))
  /\ (method req = "POST" -> path this = Some (url req) ->
      (forall s, signatureOf req = Some s ->
                 verifySignature this (body req) s = false ->
                 r = (unauthorized, accessories))
      /\ ((signatureOf req = None
           \/ exists s, signatureOf req = Some s
                        /\ verifySignature this (body req) s = true) ->
          r = processBody now req accessories)).
Proof.
  intros this now req accs r. split.
  - intros H. subst r. unfold handleRequest, Webhook.handleRequest.
    destruct (String.eqb (method req) "POST") eqn:Em; [|reflexivity].
    apply String.eqb_eq in Em. simpl.
    destruct (path this) as [p|]; [|reflexivity].
    destruct (String.eqb (url req) p) eqn:Ep; [|reflexivity].
    apply String.eqb_eq in Ep. subst p. destruct H as [H|H]; now elim H.
  - intros Hm Hp. subst r. rewrite handleRequest_on_path by assumption.
    split.
    + intros s Hs Hv. now rewrite Hs, Hv.
    + intros [Hn | [s [Hs Hv]]].
      * now rewrite Hn.
      * now rewrite Hs, Hv.
Qed.

Lemma processBody_statuses : forall now req accessories,
  match JSON_parse (body req) with
  | None => processBody now req accessories = (bad_request, accessories)
  | Some JsNull => processBody now req accessories = (bad_request, accessories)
  | Some v =>
      processBody now req accessories
      = (success, processWebhook updateStateWithPriority now v accessories)
  end.
Proof.
  intros now req accs. unfold processBody, Webhook.processBody.
  destruct (JSON_parse (body req)) as [[| |p]|]; reflexivity.
Qed.

End Receiver.
(** C5 at the failing input: a POST on the generated path, without a
    signature header, whose body parses to [null]. Parsing succeeds and no
    signature is checked, yet the response is 400 and not 200: the log line
    of [handleRequest] reads [payload.event_type] before [processWebhook]
    would have turned the null payload away. *)
Theorem handleRequest_null_payload :
  forall (JSON_parse : string -> option JsValue)
         (updateStateWithPriority : Method) this now req accessories,
  method req = "POST" ->
  path this = Some (url req) ->
  signatureOf req = None ->
  JSON_parse (body req) = Some JsNull ->
  handleRequest JSON_parse updateStateWithPriority this now req accessories
  = (bad_request, accessories)
  /\ statusCode bad_request = 400%nat.
Proof.
  intros parse upd this now req accs Hm Hp Hs Hj. split; [|reflexivity].
  rewrite handleRequest_on_path by assumption. rewrite Hs.
  unfold processBody. now rewrite Hj.
Qed.

(** The failing input of C5, run: the body [null] posted to the listening
    sample server. *)
Lemma handleRequest_null_payload_witness :
  handleRequest Samples.parse reconcile Samples.listening 1000
    (Samples.post None "null") [new_accessory "d1"]
  = (bad_request, [new_accessory "d1"])
  /\ statusCode bad_request = 400%nat.
Proof.
  apply (handleRequest_null_payload Samples.parse reconcile Samples.listening
           1000%Z (Samples.post None "null") [new_accessory "d1"]);
    reflexivity.
Defined.

(** C6, as the specification states it, fails on [verifySignature]: the
    payload of the specification, signed with the secret ["s"], has the
    digest [26b1...d98a]; the same digest written in upper case is not equal
    to it, and the request that carries it is processed, with status 200. *)
Lemma uppercase_signature_is_accepted :
  let digest := Crypto.hmac_sha256_hex "s" Samples.locked_body in
  let provided :=
    "26B1DF857314968C0DE41D4E7075B48B60078B729E299B1C52F72CFCE93CD98A" in
  digest = "26b1df857314968c0de41d4e7075b48b60078b729e299b1c52f72cfce93cd98a"
  /\ provided <> digest
  /\ verifySignature Samples.listening Samples.locked_body
       ("sha256=" ++ provided)%string = true
  /\ statusCode
       (fst (handleRequest Samples.parse reconcile Samples.listening 1000
               (Samples.post (Some ("sha256=" ++ provided)%string)
                  Samples.locked_body)
               [new_accessory "d1"])) = 200%nat.
Proof.
  cbv zeta. split; [vm_compute; reflexivity|].
  split; [vm_compute; discriminate|].
  split; vm_compute; reflexivity.
Qed.

(** C6 (amended): on the generated path, with a session secret, a request
    that carries a signature is processed exactly when the hexadecimal
    decoding of the provided value, its first ["sha256="] removed, equals
    the decoding of the hex-encoded HMAC-SHA256 of the raw body under the
    secret; so the digest itself is accepted, with or without the prefix. A
    request whose decoded signature differs is answered 401 and the
    accessories are untouched. A request without signature is processed
    without verification. *)
Theorem signature_verification :
  forall (JSON_parse : string -> option JsValue)
         (updateStateWithPriority : Method) this key now req accessories,
  method req = "POST" ->
  path this = Some (url req) ->
  secret this = Some key ->
  Js.truthy_string key = true ->
  let digest := Crypto.hmac_sha256_hex key (body req) in
  let r :=
    handleRequest JSON_parse updateStateWithPriority this now req accessories in
  let processed :=
    processBody JSON_parse updateStateWithPriority now req accessories in
  (forall signature, signatureOf req = Some signature ->
     (Buffer_from_hex (replace_first "sha256=" signature)
      = Buffer_from_hex digest -> r = processed)
     /\ (Buffer_from_hex (replace_first "sha256=" signature)
         <> Buffer_from_hex digest -> r = (unauthorized, accessories))
     /\ (signature = digest \/ signature = ("sha256=" ++ digest)%string ->
         r = processed))
  /\ (signatureOf req = None -> r = processed).
Proof.
  intros parse upd this key now req accs Hm Hp Hs Hk digest r processed.
  subst r processed. rewrite handleRequest_on_path by assumption. split.
  - intros sig Hsig. rewrite Hsig.
    pose proof (verifySignature_decoded this key (body req) sig Hs Hk
                  (signatureOf_truthy req sig Hsig)) as Hv.
    assert (Hyes : Buffer_from_hex (replace_first "sha256=" sig)
                   = Buffer_from_hex digest ->
                   (if negb (verifySignature this (body req) sig)
                    then (unauthorized, accs)
                    else processBody parse upd now req accs)
                   = processBody parse upd now req accs).
    { intros E. apply Hv in E. now rewrite E. }
    split; [exact Hyes|]. split.
    + intros E. destruct (verifySignature this (body req) sig) eqn:V.
      * elim E. now apply Hv.
      * reflexivity.
    + intros [-> | ->]; apply Hyes.
      * subst digest. now rewrite digest_has_no_prefix.
      * now rewrite replace_first_prefixed.
  - intros Hn. now rewrite Hn.
Qed.

(** The amended C6 on the payload of the specification signed with ["s"]:
    the digest with its prefix is accepted, a digest whose last digit is
    changed is answered 401. *)
Lemma signature_verification_witness :
  let good :=
    "sha256=26b1df857314968c0de41d4e7075b48b60078b729e299b1c52f72cfce93cd98a" in
  let bad :=
    "sha256=26b1df857314968c0de41d4e7075b48b60078b729e299b1c52f72cfce93cd98b" in
  handleRequest Samples.parse reconcile Samples.listening 1000
    (Samples.post (Some good) Samples.locked_body) [new_accessory "d1"]
  = processBody Samples.parse reconcile 1000
      (Samples.post (Some good) Samples.locked_body) [new_accessory "d1"]
  /\ handleRequest Samples.parse reconcile Samples.listening 1000
       (Samples.post (Some bad) Samples.locked_body) [new_accessory "d1"]
     = (unauthorized, [new_accessory "d1"]).
Proof.
  cbv zeta. split.
  - apply (proj1 (proj1 (signature_verification Samples.parse reconcile
                    Samples.listening "s" 1000%Z
                    (Samples.post
                       (Some "sha256=26b1df857314968c0de41d4e7075b48b60078b729e299b1c52f72cfce93cd98a")
                       Samples.locked_body)
                    [new_accessory "d1"] eq_refl eq_refl eq_refl eq_refl)
             _ eq_refl)).
    vm_compute. reflexivity.
  - apply (proj1 (proj2 (proj1 (signature_verification Samples.parse
                    reconcile Samples.listening "s" 1000%Z
                    (Samples.post
                       (Some "sha256=26b1df857314968c0de41d4e7075b48b60078b729e299b1c52f72cfce93cd98b")
                       Samples.locked_body)
                    [new_accessory "d1"] eq_refl eq_refl eq_refl eq_refl)
             _ eq_refl))).
    vm_compute. discriminate.
Defined.

End ReceiverFacts.

(** ** The watermark of [processWebhook] and event times that are not
    positive numbers *)
Module WatermarkFacts.
Import Accessory Reconciler Webhook.

Section Receiver.

Variable updateStateWithPriority : Method.

Let processEvent := processEvent updateStateWithPriority.
Let dispatch := dispatch updateStateWithPriority.

(** An event whose [occurred_at] does not parse has the event time [NaN]:
    the test of line 224 is false whatever the watermark, and line 230
    stores [NaN]. *)
Lemma processEvent_unparsable : forall eventType payload accessory,
  processEvent eventType payload None accessory
  = dispatch eventType payload None (set_lastEventTime None accessory).
Proof.
  intros e p a. unfold processEvent, Webhook.processEvent.
  destruct (lastEventTime a) as [l|]; simpl; [|reflexivity].
  now rewrite andb_false_r.
Qed.

(** A watermark that is [NaN], [undefined] or 0 is falsy at line 224: every
    event passes, whatever its time. *)
Lemma processEvent_falsy_watermark : forall eventType payload t accessory,
  Js.truthy_time (lastEventTime accessory) = false ->
  processEvent eventType payload t accessory
  = dispatch eventType payload t (set_lastEventTime t accessory).
Proof.
  intros e p t a H. unfold processEvent, Webhook.processEvent.
  now rewrite H.
Qed.

End Receiver.

(** [processWebhook] on the one accessory of the device of the payload. *)
Lemma processWebhook_own :
  forall (updateStateWithPriority : Method) now eventType occurred d a,
  Js.truthy_string eventType = true ->
  deviceId a = d ->
  let p := mkPayload (Some eventType) (Some d) occurred None in
  processWebhook updateStateWithPriority now (JsObject p) [a]
  = [processEvent updateStateWithPriority eventType p (eventTimeOf now p) a].
Proof.
  intros upd now e occurred d a He Hd p.
  rewrite (WebhookFacts.processWebhook_object upd now p e [a] eq_refl He).
  subst p. cbn [update_first device_id is_device].
  now rewrite Hd, String.eqb_refl.
Qed.

(** After an event at time 0 the watermark is 0, which line 224 reads as no
    watermark: an event of any earlier time passes and lowers it. *)
Lemma zero_watermark_is_no_watermark :
  forall (updateStateWithPriority : Method) now a t,
  lastEventTime a = Some 0%Z ->
  processWebhook updateStateWithPriority now
    (JsObject (mkPayload (Some "device.tampered") (Some (deviceId a))
                 (Some (Some t)) None)) [a]
  = [set_lastEventTime (Some t) a].
Proof.
  intros upd now a t H.
  rewrite (processWebhook_own upd now "device.tampered" (Some (Some t))
             (deviceId a) a eq_refl eq_refl).
  cbn [eventTimeOf occurred_at].
  rewrite processEvent_falsy_watermark by (rewrite H; reflexivity).
  reflexivity.
Qed.

(** C1 at the failing input, for every implementation of
    [updateStateWithPriority]. The accessory has the watermark [l], set by
    an earlier event; [t <= l] is the time of a late event.
    (1) As long as the watermark is [l], the late event is discarded.
    (2) An event whose [occurred_at] does not parse (its time is [NaN])
        passes the test of line 224 and line 230 replaces the watermark by
        [NaN]: [lastEventTime] is no longer a time at or above [l].
    (3) The late event, delivered after it, passes: the watermark becomes
        [t], below [l], so the update is not a no-op and [lastEventTime] has
        decreased.
    (4) A late [lock.unlocked], delivered after it, is handed to
        [updateStateWithPriority] with the stale time. *)
Theorem stale_event_passes_after_unparsable_time :
  forall (updateStateWithPriority : Method) now a l t,
  lastEventTime a = Some l ->
  l <> 0%Z ->
  (t <= l)%Z ->
  let event eventType occurred :=
    JsObject (mkPayload (Some eventType) (Some (deviceId a)) occurred None) in
  let process := processWebhook updateStateWithPriority now in
  process (event "device.tampered" (Some (Some t))) [a] = [a]
  /\ process (event "device.tampered" (Some None)) [a]
     = [set_lastEventTime None a]
  /\ process (event "device.tampered" (Some (Some t)))
       (process (event "device.tampered" (Some None)) [a])
     = [set_lastEventTime (Some t) a]
  /\ process (event "lock.unlocked" (Some (Some t)))
       (process (event "device.tampered" (Some None)) [a])
     = [updateStateWithPriority (set_lastEventTime (Some t) a)
          (mkStatus (Some false) None None None) webhook (Some t)].
Proof.
  intros upd now a l t Hl Hnz Hle. cbv zeta.
  assert (E : processWebhook upd now
                (JsObject (mkPayload (Some "device.tampered")
                             (Some (deviceId a)) (Some None) None)) [a]
              = [set_lastEventTime None a]).
  { rewrite (processWebhook_own upd now "device.tampered" (Some None)
               (deviceId a) a eq_refl eq_refl).
    cbn [eventTimeOf occurred_at].
    now rewrite processEvent_unparsable. }
  split; [|split; [exact E|split]].
  - rewrite (processWebhook_own upd now "device.tampered" (Some (Some t))
               (deviceId a) a eq_refl eq_refl).
    cbn [eventTimeOf occurred_at].
    now rewrite (WebhookFacts.processEvent_stale upd "device.tampered" _ t l).
  - rewrite E.
    rewrite (processWebhook_own upd now "device.tampered" (Some (Some t))
               (deviceId a) (set_lastEventTime None a) eq_refl eq_refl).
    cbn [eventTimeOf occurred_at].
    rewrite processEvent_falsy_watermark by reflexivity. reflexivity.
  - rewrite E.
    rewrite (processWebhook_own upd now "lock.unlocked" (Some (Some t))
               (deviceId a) (set_lastEventTime None a) eq_refl eq_refl).
    cbn [eventTimeOf occurred_at].
    rewrite processEvent_falsy_watermark by reflexivity. reflexivity.
Qed.

(** The failing input of C1, run: the accessory of [d1] with the watermark
    5000, the event with the unparsable time, then the event that occurred
    at 200. The watermarks are 5000, [NaN], 200. The two events are
    [device.tampered], for which [processWebhook] calls no method of the
    accessory. *)
Lemma stale_event_passes_after_unparsable_time_witness :
  let a := set_lastEventTime (Some 5000%Z) (new_accessory "d1") in
  let event occurred :=
    JsObject (mkPayload (Some "device.tampered") (Some "d1") occurred None) in
  let erased := processWebhook reconcile 6000 (event (Some None)) [a] in
  map lastEventTime erased = [None]
  /\ map lastEventTime
       (processWebhook reconcile 6000 (event (Some (Some 200%Z))) erased)
     = [Some 200%Z].
Proof.
  cbv zeta.
  destruct (stale_event_passes_after_unparsable_time reconcile 6000%Z
              (set_lastEventTime (Some 5000%Z) (new_accessory "d1"))
              5000%Z 200%Z eq_refl ltac:(discriminate) ltac:(discriminate))
    as [_ [H2 [H3 _]]].
  split.
  - exact (f_equal (map lastEventTime) H2).
  - exact (f_equal (map lastEventTime) H3).
Defined.

End WatermarkFacts.

(** ** Registration of the webhook across restarts *)
Module LifecycleFacts.
Import Accessory Webhook Lifecycle StringFacts.

Lemma deleteWebhook_rejects : forall id r,
  rejects (snd (deleteWebhook id r)) = rejects r.
Proof.
  intros id r. unfold deleteWebhook.
  destruct (rejects r (DeleteWebhook id)); reflexivity.
Qed.

Lemma sweep_rejects : forall c existing r,
  rejects (sweep c existing r) = rejects r.
Proof.
  intros c existing. unfold sweep.
  induction existing as [|d rest IH]; intros r; simpl.
  - reflexivity.
  - rewrite IH. destruct (matches_base c d); [|reflexivity].
    apply deleteWebhook_rejects.
Qed.

Lemma sweep_next_id : forall c existing r,
  next_id (sweep c existing r) = next_id r.
Proof.
  intros c existing. unfold sweep.
  induction existing as [|d rest IH]; intros r; simpl.
  - reflexivity.
  - rewrite IH. destruct (matches_base c d); [|reflexivity].
    unfold deleteWebhook. destruct (rejects r (DeleteWebhook (webhook_id d)));
      reflexivity.
Qed.












(** The same run, computed: the one subscription is the one created by the
    second start. *)
Example restart_leaves_the_new_subscription :
  active_for_base
    (run [] [Start "4c1d" "a1" true; Stop; Start "9e07" "b2" true]
       Samples.stale_world)
  = [mkWebhook 5 "https://hb.example/9e07"
       (getSupportedWebhookEvents [])].
Proof. vm_compute. reflexivity. Qed.

End LifecycleFacts.

(** ** Commands: one at a time, and the flag released *)
Module CommandFacts.
Import Accessory Command.

Ltac crunch :=
  repeat (simpl in *;
          match goal with
          | H : Some _ = Some _ |- _ => injection H as H; subst
          | H : None = Some _ |- _ => discriminate H
          | H : context [Nat.eqb ?a ?a] |- _ => rewrite Nat.eqb_refl in H
          | |- context [Nat.eqb ?a ?a] => rewrite Nat.eqb_refl
          | H : context [Nat.eqb ?a ?b] |- _ =>
              destruct (Nat.eqb_spec a b); subst
          | H : context [match ?ph with Calling => _ | Settling => _ end]
            |- _ => destruct ph
          | H : context [if ?b then _ else _] |- _ => destruct b
          end).

Ltac close_shape := repeat split; simpl; first [reflexivity | eassumption].

Ltac pick_shape :=
  solve [ left; close_shape
        | right; left; do 3 eexists; close_shape
        | right; right; do 4 eexists; close_shape ].

Lemma serial_step : forall e w w',
  serial w -> step e w = Some w' ->
  (List.length (callers w') <= 2)%nat -> serial w'.
Proof.
  intros e [acc cs ops np rc ex] w' Hs Hstep Hlen. simpl in *.
  destruct Hs as [[Hc [Ho Hf]] | [[p [b [ph [Hc [Ho [Hf Hp]]]]]]
                                 | [p [b [ph [b' [Hc [Ho [Hf Hp]]]]]]]]];
    simpl in *; subst cs ops.
  - destruct e as [sl | q ok | q | q]; unfold step, pending in Hstep;
      simpl in Hstep; [rewrite Hf in Hstep | | |]; crunch; pick_shape.
  - destruct e as [sl | q ok | q | q]; unfold step, pending in Hstep;
      simpl in Hstep; [rewrite Hf, Hp in Hstep; simpl in Hstep | | |];
      crunch; unfold settle in *; crunch; pick_shape.
  - destruct e as [sl | q ok | q | q]; unfold step, pending in Hstep;
      simpl in Hstep; [rewrite Hf, Hp in Hstep; simpl in Hstep | | |];
      crunch; unfold settle in *; crunch; simpl in *; try lia; pick_shape.
Qed.

Lemma reachable_serial : forall w, reachable 2 w -> serial w.
Proof.
  induction 1 as [a | w e w' _ IH Hstep Hlen].
  - left. repeat split; reflexivity.
  - exact (serial_step e w w' IH Hstep Hlen).
Qed.

Lemma serial_one_operation : forall w,
  serial w ->
  (List.length (operations w) <= 1)%nat
  /\ (operations w <> [] -> isCommandInProgress (accessory w) = true
                            /\ exists p, commandPromise (accessory w) = Some p
                                         /\ pending p w <> None).
Proof.
  intros w [[_ [Ho _]] | [[p [b [ph [_ [Ho [Hf Hp]]]]]]
                         | [p [b [ph [b' [_ [Ho [Hf Hp]]]]]]]]];
    rewrite Ho; simpl; split; try lia; intros Hne; try (now elim Hne);
    (split; [assumption|]); exists p; (split; [assumption|]);
    unfold pending; rewrite Ho; simpl; rewrite Nat.eqb_refl; discriminate.
Qed.

Lemma calls_in_flight_le : forall w,
  (List.length (calls_in_flight w) <= List.length (operations w))%nat.
Proof. intros w. unfold calls_in_flight. apply filter_length_le. Qed.
(** With at most two calls of [setLockTargetState] active at a time the
    commands are serial: at most one command is in flight, so at most one
    remote lock/unlock call is unanswered; and a call that arrives while a
    command is in flight issues no remote call: it is suspended on the
    promise of that command. *)
Lemma two_callers_one_command : forall w,
  reachable 2 w ->
  (List.length (operations w) <= 1)%nat
  /\ (List.length (calls_in_flight w) <= 1)%nat
  /\ forall shouldLock w',
       operations w <> [] ->
       step (Request shouldLock) w = Some w' ->
       remote_calls w' = remote_calls w
       /\ operations w' = operations w
       /\ exists p, pending p w <> None
                    /\ callers w' = callers w ++ [AwaitPrevious p shouldLock].
Proof.
  intros w Hr. apply reachable_serial in Hr.
  destruct (serial_one_operation w Hr) as [Hle Hbusy].
  split; [exact Hle|]. split.
  - pose proof (calls_in_flight_le w). lia.
  - intros sl w' Hne Hstep. destruct (Hbusy Hne) as [Hf [p [Hp Hpend]]].
    unfold step in Hstep. rewrite Hf, Hp in Hstep.
    destruct (pending p w) as [o|] eqn:E; [|now elim Hpend].
    injection Hstep as <-. simpl. repeat split.
    exists p. split; [now rewrite E | reflexivity].
Qed.

(** The run of two calls: the second arrives while the command of the first
    is in flight, and one remote call has been issued. *)
Example two_callers_run :
  exists w,
    run [Request true; Request true] (quiet (new_accessory "d1")) = Some w
    /\ callers w = [AwaitOwn 0; AwaitPrevious 0 true]
    /\ operations w = [mkOp 0 true Calling]
    /\ remote_calls w = 1%nat.
Proof. eexists. repeat split. Qed.

(** C3 at the failing input: three calls of [setLockTargetState], the
    second and the third arriving while the command of the first is in
    flight. Both wait for the promise of the first command. When it is
    fulfilled the first caller clears the flag, and the two waiters are
    resumed one after the other: neither tests the flag again, each raises
    it and issues its remote call. Two remote calls are then unanswered at
    the same time, for one device. *)
Theorem three_callers_overlap :
  exists w,
    run [Request true; Request true; Request true;
         RemoteReply 0 true; DelayElapsed 0]
      (quiet (new_accessory "d1")) = Some w
    /\ callers w = [AwaitOwn 1; AwaitOwn 2]
    /\ calls_in_flight w = [mkOp 1 true Calling; mkOp 2 true Calling]
    /\ remote_calls w = 3%nat
    /\ exits w = [Returned].
Proof. eexists. repeat split. Qed.

(** After that overlap the flag no longer tells whether a command is in
    flight: when the second command fails its caller clears the flag, and a
    fourth call, arriving while the third command is still in flight, does
    not wait. *)
Example overlap_defeats_the_flag :
  exists w,
    run [Request true; Request true; Request true;
         RemoteReply 0 true; DelayElapsed 0; RemoteReply 1 false;
         Request false]
      (quiet (new_accessory "d1")) = Some w
    /\ calls_in_flight w = [mkOp 2 true Calling; mkOp 3 false Calling]
    /\ remote_calls w = 4%nat.
Proof. eexists. repeat split. Qed.

(** *** The flag is released *)

Lemma resume_owned_ops : forall fulfilled p cs v,
  (forall o, In o (operations v) ->
             In (AwaitOwn (op_promise o)) (callers v)
             \/ (op_promise o <> p /\ In (AwaitOwn (op_promise o)) cs)) ->
  forall o, In o (operations (fold_left (resume fulfilled p) cs v)) ->
            In (AwaitOwn (op_promise o))
              (callers (fold_left (resume fulfilled p) cs v)).
Proof.
  intros fulfilled p cs. induction cs as [|c cs IH]; intros v J o Ho; simpl in *.
  - destruct (J o Ho) as [H | [_ []]]. exact H.
  - apply (IH (resume fulfilled p v c)); [|exact Ho].
    clear o Ho. intros o Ho.
    destruct c as [q b | q]; simpl in *.
    + destruct (Nat.eqb_spec q p) as [->|Hne]; [destruct fulfilled|];
        simpl in *.
      * apply in_app_or in Ho. destruct Ho as [Ho | [<- | []]].
        -- destruct (J o Ho) as [H | [Hp [H | H]]];
             [left; apply in_or_app; now left | discriminate H
             | right; now split].
        -- left. apply in_or_app. right. now left.
      * destruct (J o Ho) as [H | [Hp [H | H]]];
          [now left | discriminate H | right; now split].
      * destruct (J o Ho) as [H | [Hp [H | H]]];
          [left; apply in_or_app; now left | discriminate H
          | right; now split].
    + destruct (Nat.eqb_spec q p) as [->|Hne]; simpl in *.
      * destruct (J o Ho) as [H | [Hp [H | H]]];
          [now left | injection H as H; now elim Hp | right; now split].
      * destruct (J o Ho) as [H | [Hp [H | H]]];
          [left; apply in_or_app; now left
          | left; apply in_or_app; right; left; exact H
          | right; now split].
Qed.

Lemma find_last : forall {A} (f : A -> bool) l x,
  f x = true -> find f (l ++ [x]) <> None.
Proof.
  intros A f l x Hx. induction l as [|y l IH]; simpl.
  - now rewrite Hx.
  - destruct (f y); [discriminate | exact IH].
Qed.

Lemma startCommand_flag_backed : forall b w, flag_backed (startCommand b w).
Proof.
  intros b w _. exists (next_promise w). split; [reflexivity|].
  unfold pending. simpl. apply find_last. simpl. apply Nat.eqb_refl.
Qed.

Lemma resume_flag_backed : forall fulfilled p v c,
  flag_backed v -> flag_backed (resume fulfilled p v c).
Proof.
  intros fulfilled p v c Hv.
  destruct c as [q b | q]; simpl;
    destruct (Nat.eqb q p); [destruct fulfilled| | |];
    try exact Hv; try apply startCommand_flag_backed.
  intros H. discriminate H.
Qed.

Lemma resume_all_flag_backed : forall fulfilled p cs v,
  flag_backed v -> flag_backed (fold_left (resume fulfilled p) cs v).
Proof.
  intros fulfilled p cs. induction cs as [|c cs IH]; intros v Hv; simpl.
  - exact Hv.
  - apply IH. now apply resume_flag_backed.
Qed.

Lemma resume_all_releases : forall fulfilled p cs v,
  In (AwaitOwn p) cs -> flag_backed (fold_left (resume fulfilled p) cs v).
Proof.
  intros fulfilled p cs. induction cs as [|c cs IH]; intros v Hin; simpl.
  - destruct Hin.
  - destruct Hin as [-> | Hin].
    + apply resume_all_flag_backed. unfold flag_backed. simpl.
      rewrite Nat.eqb_refl. simpl. intros H. discriminate H.
    + now apply IH.
Qed.

Lemma settle_owned : forall fulfilled p w,
  owned w -> pending p w <> None -> owned (settle fulfilled p w).
Proof.
  intros fulfilled p w [Hown Hflag] Hpend. unfold settle. split.
  - apply resume_owned_ops. simpl. intros o Ho.
    apply filter_In in Ho. destruct Ho as [Ho Hne].
    apply negb_true_iff, Nat.eqb_neq in Hne. right. split; [exact Hne|].
    now apply Hown.
  - apply resume_all_releases.
    unfold pending in Hpend.
    destruct (find (fun o => Nat.eqb (op_promise o) p) (operations w))
      as [o|] eqn:F; [|now elim Hpend].
    apply find_some in F. destruct F as [Ho Hp].
    apply Nat.eqb_eq in Hp. rewrite <- Hp. now apply Hown.
Qed.

Lemma startCommand_owned : forall b w, owned w -> owned (startCommand b w).
Proof.
  intros b w [Hown _]. split; simpl.
  - intros o Ho. apply in_app_or in Ho. apply in_or_app.
    destruct Ho as [Ho | [<- | []]]; [left; now apply Hown | right; now left].
  - apply startCommand_flag_backed.
Qed.

Lemma set_phase_promises : forall p ph ops o,
  In o (set_phase p ph ops) ->
  exists o', In o' ops /\ op_promise o' = op_promise o.
Proof.
  intros p ph ops o Ho. unfold set_phase in Ho. apply in_map_iff in Ho.
  destruct Ho as [o' [E Ho']]. exists o'. split; [exact Ho'|].
  destruct (Nat.eqb_spec (op_promise o') p) as [Hp|Hp]; subst o; simpl;
    congruence.
Qed.

Lemma find_set_phase : forall q p ph ops,
  find (fun o => Nat.eqb (op_promise o) q) ops <> None ->
  find (fun o => Nat.eqb (op_promise o) q) (set_phase p ph ops) <> None.
Proof.
  intros q p ph ops. induction ops as [|o ops IH]; simpl; [easy|].
  destruct (Nat.eqb_spec (op_promise o) p) as [Hp|Hp]; simpl.
  - subst p. destruct (Nat.eqb (op_promise o) q); [discriminate | exact IH].
  - destruct (Nat.eqb (op_promise o) q); [discriminate | exact IH].
Qed.

Lemma flag_backed_operations : forall w,
  flag_backed w ->
  isCommandInProgress (accessory w) = true -> operations w <> [].
Proof.
  intros w Hb Hf. destruct (Hb Hf) as [p [_ Hp]]. unfold pending in Hp.
  intros E. rewrite E in Hp. now apply Hp.
Qed.

Lemma step_owned : forall e w w',
  owned w -> step e w = Some w' -> owned w'.
Proof.
  intros e w w' Hw Hstep. destruct e as [b | p ok | p | p]; simpl in Hstep.
  - destruct (isCommandInProgress (accessory w)) eqn:Hf.
    + destruct (commandPromise (accessory w)) as [p|].
      * destruct (pending p w) as [o|]; [|discriminate Hstep].
        injection Hstep as <-. destruct Hw as [Hown Hflag]. split; simpl.
        -- intros o' Ho'. apply in_or_app. left. now apply Hown.
        -- exact Hflag.
      * injection Hstep as <-. now apply startCommand_owned.
    + injection Hstep as <-. now apply startCommand_owned.
  - destruct (pending p w) as [[q b [|]]|] eqn:E; try discriminate Hstep.
    destruct ok; injection Hstep as <-.
    + destruct Hw as [Hown Hflag]. split; simpl.
      * intros o Ho. apply set_phase_promises in Ho.
        destruct Ho as [o' [Ho' <-]]. now apply Hown.
      * intros Hf. destruct (Hflag Hf) as [p' [Hc Hp']].
        exists p'. split; [exact Hc|]. unfold pending. simpl.
        now apply find_set_phase.
    + apply settle_owned; [exact Hw | now rewrite E].
  - destruct (pending p w) as [[q b [|]]|] eqn:E; try discriminate Hstep.
    injection Hstep as <-. apply settle_owned; [exact Hw | now rewrite E].
  - destruct (pending p w) as [[q b [|]]|] eqn:E; try discriminate Hstep.
    injection Hstep as <-. apply settle_owned; [exact Hw | now rewrite E].
Qed.

Lemma reachable_owned : forall bound w, reachable bound w -> owned w.
Proof.
  induction 1 as [a | w e w' _ IH Hstep _].
  - split; simpl; [intros o [] | discriminate].
  - exact (step_owned e w w' IH Hstep).
Qed.

(** A call of [setLockTargetState] can arrive in every world of a run: the
    case left out of [step], a raised flag whose promise has settled, does
    not occur. *)
Lemma request_enabled : forall bound w shouldLock,
  reachable bound w -> exists w', step (Request shouldLock) w = Some w'.
Proof.
  intros bound w b Hr. apply reachable_owned in Hr. destruct Hr as [_ Hb].
  unfold step. destruct (isCommandInProgress (accessory w)) eqn:Hf.
  - destruct (Hb Hf) as [p [-> Hp]].
    destruct (pending p w); [eexists; reflexivity | now elim Hp].
  - eexists; reflexivity.
Qed.

Lemma operation_can_settle : forall w o,
  In o (operations w) ->
  exists w', step (TimeoutFires (op_promise o)) w = Some w'
             \/ step (DelayElapsed (op_promise o)) w = Some w'.
Proof.
  intros w o Ho. unfold step.
  destruct (pending (op_promise o) w) as [[q b [|]]|] eqn:E.
  - eexists. left. reflexivity.
  - eexists. right. reflexivity.
  - unfold pending in E.
    pose proof (find_none _ _ E o Ho) as H. simpl in H.
    now rewrite Nat.eqb_refl in H.
Qed.

(** C4: (1) a call of [setLockTargetState] that runs alone ends with the
    flag cleared and no stored promise on each of its three paths: the
    remote call succeeds (the call returns after the delay, the lock state
    set), the remote call fails, the 15 s timer fires (the call throws);
    (2) in any world, the continuation of a caller after its own command
    promise, fulfilled or rejected, clears the flag before the caller
    returns or throws; (3) along every run, with any number of callers, the
    flag is raised only while a command is in flight, and (4) every command
    in flight can settle, by its timer at the latest. *)
Theorem command_flag_released :
  (forall a shouldLock,
     (exists w,
        run [Request shouldLock; RemoteReply 0 true; DelayElapsed 0]
          (quiet a) = Some w
        /\ isCommandInProgress (accessory w) = false
        /\ commandPromise (accessory w) = None
        /\ isLocked (accessory w) = shouldLock
        /\ exits w = [Returned])
     /\ (exists w,
          run [Request shouldLock; RemoteReply 0 false] (quiet a) = Some w
          /\ isCommandInProgress (accessory w) = false
          /\ commandPromise (accessory w) = None
          /\ exits w = [Threw])
     /\ (exists w,
          run [Request shouldLock; TimeoutFires 0] (quiet a) = Some w
          /\ isCommandInProgress (accessory w) = false
          /\ commandPromise (accessory w) = None
          /\ exits w = [Threw]))
  /\ (forall fulfilled p w,
        let w' := resume fulfilled p w (AwaitOwn p) in
        isCommandInProgress (accessory w') = false
        /\ commandPromise (accessory w') = None
        /\ exits w' = exits w ++ [if fulfilled then Returned else Threw])
  /\ (forall bound w,
        reachable bound w ->
        isCommandInProgress (accessory w) = true -> operations w <> [])
  /\ (forall bound w o,
        reachable bound w -> In o (operations w) ->
        exists w', step (TimeoutFires (op_promise o)) w = Some w'
                   \/ step (DelayElapsed (op_promise o)) w = Some w').
Proof.
  split; [|split; [|split]].
  - intros a shouldLock. split; [|split]; eexists;
      (split; [reflexivity|]); repeat split.
  - intros fulfilled p w w'. subst w'. simpl. rewrite Nat.eqb_refl.
    repeat split.
  - intros bound w Hr. apply flag_backed_operations.
    exact (proj2 (reachable_owned bound w Hr)).
  - intros bound w o _ Ho. now apply operation_can_settle.
Qed.

(** C4 on the world in which one call has raised the flag and waits for
    its command: the flag is backed by that command, which can settle. *)
Lemma command_flag_released_witness :
  let w := startCommand true (quiet (new_accessory "d1")) in
  isCommandInProgress (accessory w) = true
  /\ operations w <> []
  /\ exists w', step (TimeoutFires 0) w = Some w'
                \/ step (DelayElapsed 0) w = Some w'.
Proof.
  cbv zeta.
  assert (R : reachable 1 (startCommand true (quiet (new_accessory "d1")))).
  { apply reach_step with (w := quiet (new_accessory "d1"))
                          (e := Request true);
      [apply reach_quiet | reflexivity | simpl; lia]. }
  destruct command_flag_released as [_ [_ [Hflag Hsettle]]].
  split; [reflexivity|]. split.
  - exact (Hflag 1%nat _ R eq_refl).
  - exact (Hsettle 1%nat _ (mkOp 0 true Calling) R (or_introl eq_refl)).
Defined.

End CommandFacts.

(** ** [updateState]: repeated updates and the battery fields *)
Module UpdateStateFacts.
Import Accessory.

Lemma updateLockField_fixed : forall state x,
  (forall b, locked state = Some b -> isLocked x = b) ->
  updateLockField state x = x.
Proof.
  intros state x H. unfold updateLockField.
  destruct (locked state) as [b|]; [|reflexivity].
  rewrite (H b eq_refl). now rewrite Bool.eqb_reflx.
Qed.

Lemma updateBatteryField_fixed : forall now state x,
  (forall v, battery_level state = Some v -> batteryLevel x == v) ->
  updateBatteryField now state x = x.
Proof.
  intros now state x H. unfold updateBatteryField.
  destruct (battery_level state) as [v|]; [|reflexivity].
  assert (E : Qeq_bool v (batteryLevel x) = true).
  { apply Qeq_bool_iff. symmetry. now apply H. }
  now rewrite E.
Qed.

Lemma updateDoorField_fixed : forall state x,
  (forall d, door_open state = Some d -> contactService x = true ->
             isDoorOpen x = d) ->
  updateDoorField state x = x.
Proof.
  intros state x H. unfold updateDoorField.
  destruct (door_open state) as [d|]; [|reflexivity].
  destruct (contactService x) eqn:Hc; [|reflexivity].
  rewrite (H d eq_refl eq_refl). now rewrite Bool.eqb_reflx.
Qed.

Lemma updateLockField_flag : forall state a,
  isCommandInProgress (updateLockField state a) = isCommandInProgress a.
Proof.
  intros state a. unfold updateLockField.
  destruct (locked state) as [b|]; [|reflexivity].
  destruct (negb (Bool.eqb b (isLocked a))); reflexivity.
Qed.

Lemma updateBatteryField_flag : forall now state a,
  isCommandInProgress (updateBatteryField now state a)
  = isCommandInProgress a.
Proof.
  intros now state a. unfold updateBatteryField.
  destruct (battery_level state) as [v|]; [|reflexivity].
  destruct (negb (Qeq_bool v (batteryLevel a))); reflexivity.
Qed.

Lemma updateDoorField_flag : forall state a,
  isCommandInProgress (updateDoorField state a) = isCommandInProgress a.
Proof.
  intros state a. unfold updateDoorField.
  destruct (door_open state) as [d|]; [|reflexivity].
  destruct (contactService a && negb (Bool.eqb d (isDoorOpen a)));
    reflexivity.
Qed.

Lemma updateDoorField_contactService : forall state a,
  contactService (updateDoorField state a) = contactService a.
Proof.
  intros state a. unfold updateDoorField.
  destruct (door_open state) as [d|]; [|reflexivity].
  destruct (contactService a && negb (Bool.eqb d (isDoorOpen a)));
    reflexivity.
Qed.

Lemma updateState_deviceId : forall now state a,
  deviceId (updateState now state a) = deviceId a.
Proof.
  intros now state a. unfold updateState.
  destruct (isCommandInProgress a); [reflexivity|].
  transitivity (deviceId (updateBatteryField now state
                            (updateLockField state a))).
  { generalize (updateBatteryField now state (updateLockField state a)).
    intros x. unfold updateDoorField.
    destruct (door_open state) as [d|]; [|reflexivity].
    destruct (contactService x && negb (Bool.eqb d (isDoorOpen x)));
      reflexivity. }
  transitivity (deviceId (updateLockField state a)).
  { generalize (updateLockField state a). intros x.
    unfold updateBatteryField.
    destruct (battery_level state) as [v|]; [|reflexivity].
    destruct (negb (Qeq_bool v (batteryLevel x))); reflexivity. }
  unfold updateLockField.
  destruct (locked state) as [b|]; [|reflexivity].
  destruct (negb (Bool.eqb b (isLocked a))); reflexivity.
Qed.

(** X1: an update applied a second time changes nothing, whatever the clock
    reads: no field is written and no characteristic is pushed again. *)
Theorem updateState_idempotent : forall now now' state a,
  updateState now' state (updateState now state a) = updateState now state a.
Proof.
  intros now now' state a.
  destruct (isCommandInProgress a) eqn:F.
  - assert (E : updateState now state a = a)
      by (unfold updateState; now rewrite F).
    rewrite E. unfold updateState. now rewrite F.
  - set (a1 := updateLockField state a).
    set (a2 := updateBatteryField now state a1).
    set (a3 := updateDoorField state a2).
    assert (E : updateState now state a = a3)
      by (unfold updateState; now rewrite F).
    rewrite E.
    assert (F3 : isCommandInProgress a3 = false).
    { subst a3 a2 a1.
      now rewrite updateDoorField_flag, updateBatteryField_flag,
        updateLockField_flag. }
    unfold updateState. rewrite F3.
    assert (L : updateLockField state a3 = a3).
    { apply updateLockField_fixed. intros b Hb. subst a3 a2.
      destruct (AccessoryFacts.updateDoorField_frame state
                  (updateBatteryField now state a1)) as [-> _].
      destruct (AccessoryFacts.updateBatteryField_frame now state a1)
        as [-> _].
      now apply AccessoryFacts.updateLockField_locked. }
    rewrite L.
    assert (B : updateBatteryField now' state a3 = a3).
    { apply updateBatteryField_fixed. intros v Hv. subst a3.
      destruct (AccessoryFacts.updateDoorField_frame state a2) as [_ ->].
      now apply AccessoryFacts.updateBatteryField_level. }
    rewrite B.
    apply updateDoorField_fixed. intros d Hd Hc. subst a3.
    rewrite updateDoorField_contactService in Hc.
    now apply AccessoryFacts.updateDoorField_open.
Qed.

End UpdateStateFacts.

(** ** The battery cache and the read handlers *)
Module ReadsFacts.
Import Accessory Reads.

Lemma updateLockField_battery : forall state a,
  batteryLevel (updateLockField state a) = batteryLevel a
  /\ isLowBattery (updateLockField state a) = isLowBattery a
  /\ batteryCache (updateLockField state a) = batteryCache a.
Proof.
  intros state a. unfold updateLockField.
  destruct (locked state) as [b|]; [|auto].
  destruct (negb (Bool.eqb b (isLocked a))); auto.
Qed.

Lemma updateDoorField_battery : forall state a,
  batteryLevel (updateDoorField state a) = batteryLevel a
  /\ isLowBattery (updateDoorField state a) = isLowBattery a
  /\ batteryCache (updateDoorField state a) = batteryCache a.
Proof.
  intros state a. unfold updateDoorField.
  destruct (door_open state) as [d|]; [|auto].
  destruct (contactService a && negb (Bool.eqb d (isDoorOpen a))); auto.
Qed.

Lemma coherent_fields : forall a a',
  batteryLevel a' = batteryLevel a ->
  isLowBattery a' = isLowBattery a ->
  batteryCache a' = batteryCache a ->
  coherent a -> coherent a'.
Proof.
  unfold coherent. intros a a' -> -> ->. exact (fun H => H).
Qed.

Lemma updateBatteryField_coherent : forall now state a,
  coherent a -> coherent (updateBatteryField now state a).
Proof.
  intros now state a H. unfold updateBatteryField.
  destruct (battery_level state) as [v|]; [|exact H].
  destruct (negb (Qeq_bool v (batteryLevel a))); [|exact H].
  unfold coherent. simpl. auto.
Qed.

Lemma updateState_coherent : forall now state a,
  coherent a -> coherent (updateState now state a).
Proof.
  intros now state a H. unfold updateState.
  destruct (isCommandInProgress a); [exact H|].
  destruct (updateDoorField_battery state
              (updateBatteryField now state (updateLockField state a)))
    as [H1 [H2 H3]].
  apply (coherent_fields _ _ H1 H2 H3).
  apply updateBatteryField_coherent.
  destruct (updateLockField_battery state a) as [K1 [K2 K3]].
  now apply (coherent_fields _ _ K1 K2 K3).
Qed.

Lemma getBatteryLevelFromAPI_coherent : forall now api now' a,
  coherent a ->
  let r := getBatteryLevelFromAPI now api now' a in
  coherent (set_battery (read_level r) (read_isLow r) (read_accessory r)).
Proof.
  intros now api now' a H. unfold getBatteryLevelFromAPI.
  destruct H as [H1 [H2 H3]].
  destruct (isBatteryCacheValid now a).
  - unfold coherent. simpl. rewrite H1, H2. auto.
  - destruct (api (deviceId a)) as [e|status].
    + unfold coherent. simpl. rewrite H1, H2. auto.
    + unfold coherent. simpl. auto.
Qed.

(** X2: the battery fields stay coherent. If the cache and the accessory
    hold the same level and the same low-battery flag, and the flag is the
    test of the level against 20, then this is still so after [updateState],
    after [getBatteryLevel], after [getStatusLowBattery] and after
    [getLockCurrentState], whatever the API answers. *)
Theorem battery_fields_stay_coherent :
  forall a, coherent a ->
  (forall now state, coherent (updateState now state a))
  /\ (forall now api now',
        coherent (snd (fst (getBatteryLevel now api now' a)))
        /\ coherent (snd (fst (getStatusLowBattery now api now' a))))
  /\ (forall device timed_out now retry now',
        coherent
          (snd (getLockCurrentState device timed_out now retry now' a))).
Proof.
  intros a H. split; [|split].
  - intros now state. now apply updateState_coherent.
  - intros now api now'. split; simpl;
      now apply getBatteryLevelFromAPI_coherent.
  - intros device timed_out now retry now'. unfold getLockCurrentState.
    assert (C : coherent
                  (updateValue
                     [LockCurrentState (isLocked a);
                      LockTargetState (isLocked a)] a)).
    { now apply (coherent_fields a). }
    destruct timed_out; [exact C|].
    destruct (SeamAPI.getLockStatus device) as [e|status]; [exact C|].
    simpl.
    destruct (battery_level status) as [v|].
    + unfold coherent. simpl. auto.
    + set (a1 := set_isLocked (SeamAPI.or_false (locked status)) a).
      assert (C1 : coherent a1) by now apply (coherent_fields a).
      pose proof (getBatteryLevelFromAPI_coherent now retry now' a1 C1)
        as C2.
      cbv zeta in C2.
      eapply coherent_fields; [| | |exact C2]; reflexivity.
Qed.

(** The accessory that the constructor builds is coherent, and so is what
    an update and the reads make of it. *)
Lemma battery_fields_stay_coherent_witness :
  coherent (new_accessory "d1")
  /\ coherent
       (updateState 1000 (mkStatus None (Some 15) None None)
          (new_accessory "d1")).
Proof.
  split.
  - repeat split.
  - apply (proj1 (battery_fields_stay_coherent (new_accessory "d1")
                    (conj eq_refl (conj eq_refl eq_refl)))).
Defined.

(** X3: a rejected query costs nothing. When the API rejects, a battery read
    hands back the level and the flag of the cache, however old the cache
    is, and leaves the accessory (the cache and its time stamp included) as
    it was. *)
Theorem battery_read_survives_rejection : forall now api now' a,
  (forall id, exists message, api id = inl message) ->
  let r := getBatteryLevelFromAPI now api now' a in
  read_level r = level (batteryCache a)
  /\ read_isLow r = isLow (batteryCache a)
  /\ read_accessory r = a.
Proof.
  intros now api now' a Hrej. unfold getBatteryLevelFromAPI.
  destruct (isBatteryCacheValid now a); [auto|].
  destruct (Hrej (deviceId a)) as [message ->]. auto.
Qed.

Lemma battery_read_survives_rejection_witness :
  let r :=
    getBatteryLevelFromAPI 7200000 (fun _ => inl "Request timeout") 7200001
      (new_accessory "d1") in
  read_level r = 100 /\ read_accessory r = new_accessory "d1"
  /\ read_queries r = ["d1"].
Proof.
  cbv zeta.
  destruct (battery_read_survives_rejection 7200000
              (fun _ => inl "Request timeout") 7200001 (new_accessory "d1")
              (fun _ => ex_intro _ "Request timeout" eq_refl))
    as [H1 [_ H3]].
  split; [exact H1|]. split; [exact H3|reflexivity].
Defined.

(** X4: a level fetched from the API is served from the cache afterwards.
    After a read that found the cache expired and got a status, every read
    whose clock is less than [cacheTimeout] past the refresh makes no query
    and returns the level fetched. *)
Theorem fetched_battery_level_is_cached :
  forall now api now' status a later api2 later',
  isBatteryCacheValid now a = false ->
  api (deviceId a) = inr status ->
  (later - now' < cacheTimeout (batteryCache a))%Z ->
  let first := getBatteryLevelFromAPI now api now' a in
  let second :=
    getBatteryLevelFromAPI later api2 later' (read_accessory first) in
  read_queries first = [deviceId a]
  /\ read_queries second = []
  /\ read_level second = read_level first
  /\ read_isLow second = read_isLow first
  /\ read_accessory second = read_accessory first.
Proof.
  intros now api now' status a later api2 later' Hexp Hapi Hlt.
  cbv zeta.
  assert (E : getBatteryLevelFromAPI now api now' a
              = mkRead (or_100 (battery_level status))
                  (Js.Qlt_bool (or_100 (battery_level status)) 20)
                  (updateBatteryCache now'
                     (or_100 (battery_level status))
                     (Js.Qlt_bool (or_100 (battery_level status)) 20) a)
                  [deviceId a]).
  { unfold getBatteryLevelFromAPI. now rewrite Hexp, Hapi. }
  rewrite E. simpl.
  unfold getBatteryLevelFromAPI, isBatteryCacheValid. simpl.
  apply Z.ltb_lt in Hlt. rewrite Hlt. simpl. auto.
Qed.

Lemma fetched_battery_level_is_cached_witness :
  let api := fun _ : string => inr (mkStatus None (Some 42) None None) in
  let first :=
    getBatteryLevelFromAPI 3600000 api 3600005 (new_accessory "d1") in
  read_level first = 42
  /\ read_queries
       (getBatteryLevelFromAPI 7200004 (fun _ => inl "down") 7200004
          (read_accessory first)) = [].
Proof.
  cbv zeta. split; [reflexivity|].
  apply (fetched_battery_level_is_cached 3600000
           (fun _ => inr (mkStatus None (Some 42) None None)) 3600005
           (mkStatus None (Some 42) None None) (new_accessory "d1")
           7200004 (fun _ => inl "down") 7200004);
    reflexivity.
Defined.

(** X5: a battery level that [updateState] applies is what HomeKit reads
    next. When an update changes the level of an accessory with no command
    in progress, a [getBatteryLevel] whose clock is less than
    [cacheTimeout] past the update returns that level and makes no query. *)
Theorem updated_battery_level_is_read_back :
  forall now state v a later api later',
  isCommandInProgress a = false ->
  battery_level state = Some v ->
  ~ v == batteryLevel a ->
  (later - now < cacheTimeout (batteryCache a))%Z ->
  let r := getBatteryLevel later api later' (updateState now state a) in
  fst (fst r) = v /\ snd r = [].
Proof.
  intros now state v a later api later' Hf Hv Hne Hlt.
  unfold updateState. rewrite Hf.
  destruct (updateLockField_battery state a) as [Hb [_ Hc1]].
  assert (E : updateBatteryField now state (updateLockField state a)
              = updateValue [BatteryLevel v;
                             StatusLowBattery (Js.Qlt_bool v 20)]
                  (updateBatteryCache now v (Js.Qlt_bool v 20)
                     (set_battery v (Js.Qlt_bool v 20)
                        (updateLockField state a)))).
  { unfold updateBatteryField. rewrite Hv, Hb.
    destruct (Qeq_bool v (batteryLevel a)) eqn:Q; [|reflexivity].
    apply Qeq_bool_iff in Q. contradiction. }
  rewrite E.
  match goal with
  | |- context [updateDoorField state ?x] =>
      destruct (updateDoorField_battery state x) as [_ [_ Hc]]
  end.
  unfold getBatteryLevel, getBatteryLevelFromAPI, isBatteryCacheValid.
  rewrite Hc. simpl. rewrite Hc1.
  apply Z.ltb_lt in Hlt. rewrite Hlt. simpl. auto.
Qed.

Lemma updated_battery_level_is_read_back_witness :
  fst (fst (getBatteryLevel 2000 (fun _ => inl "down") 2000
              (updateState 1000 (mkStatus None (Some 15) None None)
                 (new_accessory "d1")))) = 15.
Proof.
  apply (proj1 (updated_battery_level_is_read_back 1000
                  (mkStatus None (Some 15) None None) 15
                  (new_accessory "d1") 2000 (fun _ => inl "down") 2000
                  eq_refl eq_refl
                  (fun H : 15 == 100 => ltac:(discriminate H))
                  eq_refl)).
Defined.

(** X6: [getLockCurrentState] never fails towards HomeKit. When the
    five-second timer wins, when the query is rejected or when the response
    carries no device, it returns the stored lock state, pushes that state
    to the two lock characteristics and changes nothing else. *)
Theorem getLockCurrentState_falls_back_to_stored_state :
  forall device timed_out now retry now' a,
  timed_out = true \/ (exists message, device = inl message)
  \/ device = inr SeamAPI.NoDevice ->
  getLockCurrentState device timed_out now retry now' a
  = (isLocked a,
     updateValue [LockCurrentState (isLocked a); LockTargetState (isLocked a)]
       a).
Proof.
  intros device timed_out now retry now' a H. unfold getLockCurrentState.
  destruct H as [-> | [[message ->] | ->]]; [reflexivity| |].
  - destruct timed_out; reflexivity.
  - destruct timed_out; reflexivity.
Qed.

Lemma getLockCurrentState_falls_back_to_stored_state_witness :
  fst (getLockCurrentState (inl "socket hang up") false 1000
         (fun _ => inl "down") 1000 (new_accessory "d1")) = true.
Proof.
  rewrite (getLockCurrentState_falls_back_to_stored_state
             (inl "socket hang up") false 1000 (fun _ => inl "down") 1000
             (new_accessory "d1")
             (or_intror (or_introl (ex_intro _ "socket hang up" eq_refl)))).
  reflexivity.
Defined.

(** X7: a read that gets the device takes the remote lock state even while
    a command is in progress. [getLockCurrentState] does not test
    [isCommandInProgress]: it returns and stores [properties.locked] (false
    when absent) and the normalized battery level, leaves the command flag
    as it was, and a [getBatteryLevel] within [cacheTimeout] of it makes no
    query. *)
Theorem getLockCurrentState_takes_remote_state :
  forall props now retry now' a later api later',
  let get {A} (f : SeamAPI.Properties -> option A) : option A :=
    match props with Some p => f p | None => None end in
  let r :=
    getLockCurrentState (inr (SeamAPI.DeviceWith props)) false now retry now'
      a in
  fst r = SeamAPI.or_false (get SeamAPI.p_locked)
  /\ isLocked (snd r) = SeamAPI.or_false (get SeamAPI.p_locked)
  /\ batteryLevel (snd r)
     = SeamAPI.normalizeBattery (get SeamAPI.p_battery_level)
  /\ isCommandInProgress (snd r) = isCommandInProgress a
  /\ ((later - now < cacheTimeout (batteryCache a))%Z ->
      getBatteryLevel later api later' (snd r)
      = (SeamAPI.normalizeBattery (get SeamAPI.p_battery_level), snd r, [])).
Proof.
  intros props now retry now' a later api later'. cbv zeta.
  unfold getLockCurrentState. simpl.
  repeat split.
  intros Hlt. unfold getBatteryLevel, getBatteryLevelFromAPI,
    isBatteryCacheValid. simpl.
  apply Z.ltb_lt in Hlt. rewrite Hlt. reflexivity.
Qed.

End ReadsFacts.

(** ** The earlier revision: polling and webhooks through [updateState] *)
Module DirectFacts.
Import Accessory Webhook Direct.

Lemma updateState_idle : forall now state a,
  isCommandInProgress a = false ->
  (forall b, locked state = Some b -> isLocked (updateState now state a) = b)
  /\ (forall v, battery_level state = Some v ->
                batteryLevel (updateState now state a) == v)
  /\ (forall d, door_open state = Some d ->
                isDoorOpen (updateState now state a)
                = if contactService a then d else isDoorOpen a).
Proof.
  intros now state a Hf. unfold updateState. rewrite Hf.
  destruct (AccessoryFacts.updateDoorField_frame state
              (updateBatteryField now state (updateLockField state a)))
    as [E1 E2].
  destruct (AccessoryFacts.updateBatteryField_frame now state
              (updateLockField state a)) as [E3 [E4 E5]].
  repeat split.
  - intros b Hb. rewrite E1, E3.
    now apply AccessoryFacts.updateLockField_locked.
  - intros v Hv. rewrite E2.
    now apply AccessoryFacts.updateBatteryField_level.
  - intros d Hd.
    destruct (contactService a) eqn:Hc.
    + apply AccessoryFacts.updateDoorField_open; [assumption|].
      now rewrite E5, AccessoryFacts.updateLockField_frame.
    + unfold updateDoorField at 1. rewrite Hd, E5,
        AccessoryFacts.updateLockField_frame, Hc. simpl.
      rewrite E4. unfold updateLockField.
      destruct (locked state) as [b|]; [|reflexivity].
      destruct (negb (Bool.eqb b (isLocked a))); reflexivity.
Qed.

Lemma pollFrom_nth_error : forall getDevice Date_now accessories i k,
  nth_error (pollFrom getDevice Date_now i accessories) k
  = option_map (pollOne getDevice Date_now (i + k))
      (nth_error accessories k).
Proof.
  intros getDevice Date_now accessories.
  induction accessories as [|a rest IH]; intros i k.
  - destruct k; reflexivity.
  - destruct k as [|k]; simpl.
    + now rewrite Nat.add_0_r.
    + rewrite IH. now rewrite Nat.add_succ_r.
Qed.

(** X8: one polling cycle of the earlier revision. The accessory at index
    [k] is queried once; if its query is rejected or a command is in
    progress it is left as it is, and otherwise it ends with the lock state
    of the device ([properties.locked], false when absent), the normalized
    battery level and, when it has a contact service, the door state. The
    outcome for one accessory does not depend on the others. *)
Theorem poll_synchronises_idle_accessories :
  forall getDevice Date_now accessories k a,
  nth_error accessories k = Some a ->
  exists a',
    nth_error (pollDevices getDevice Date_now accessories) k = Some a'
    /\ List.length (pollDevices getDevice Date_now accessories)
       = List.length accessories
    /\ (isCommandInProgress a = true -> a' = a)
    /\ ((exists message, getDevice k (deviceId a) = inl message) -> a' = a)
    /\ (forall props,
          isCommandInProgress a = false ->
          getDevice k (deviceId a) = inr (SeamAPI.DeviceWith props) ->
          let get {A} (f : SeamAPI.Properties -> option A) : option A :=
            match props with Some p => f p | None => None end in
          isLocked a' = SeamAPI.or_false (get SeamAPI.p_locked)
          /\ batteryLevel a'
             == SeamAPI.normalizeBattery (get SeamAPI.p_battery_level)
          /\ isDoorOpen a'
             = if contactService a
               then SeamAPI.or_false (get SeamAPI.p_door_open)
               else isDoorOpen a).
Proof.
  intros getDevice Date_now accessories k a Hk.
  exists (pollOne getDevice Date_now k a). split; [|split; [|split; [|split]]].
  - unfold pollDevices. rewrite pollFrom_nth_error, Hk. reflexivity.
  - unfold pollDevices. generalize 0%nat.
    clear Hk. induction accessories as [|x rest IH]; intros i; simpl;
      [reflexivity|]. now rewrite IH.
  - intros Hf. unfold pollOne.
    destruct (SeamAPI.getLockStatus (getDevice k (deviceId a)));
      [reflexivity|].
    unfold updateState. now rewrite Hf.
  - intros [message Hm]. unfold pollOne. now rewrite Hm.
  - intros props Hf Hd. cbv zeta. unfold pollOne. rewrite Hd. simpl.
    match goal with
    | |- context [updateState ?n ?s a] =>
        destruct (updateState_idle n s a Hf) as [H1 [H2 H3]]
    end.
    split; [|split].
    + now apply H1.
    + now apply H2.
    + now apply H3.
Qed.

Lemma poll_synchronises_idle_accessories_witness :
  exists a',
    nth_error
      (pollDevices
         (fun _ _ =>
            inr (SeamAPI.DeviceWith
                   (Some (SeamAPI.mkProps (Some false) (Some (1 # 2)) None
                            None))))
         (fun _ => 1000%Z) [new_accessory "d1"]) 0 = Some a'
    /\ isLocked a' = false.
Proof.
  destruct (poll_synchronises_idle_accessories
              (fun _ _ =>
                 inr (SeamAPI.DeviceWith
                        (Some (SeamAPI.mkProps (Some false) (Some (1 # 2))
                                 None None))))
              (fun _ => 1000%Z) [new_accessory "d1"] 0
              (new_accessory "d1") eq_refl)
    as [a' [H1 [_ [_ [_ H5]]]]].
  exists a'. split; [exact H1|].
  exact (proj1 (H5 _ eq_refl eq_refl)).
Defined.

Lemma update_first_id : forall {A} (p : A -> bool) (f : A -> A) l,
  (forall x, f x = x) -> update_first p f l = l.
Proof.
  intros A p f l H. induction l as [|x rest IH]; simpl; [reflexivity|].
  destruct (p x); [now rewrite H|now rewrite IH].
Qed.

Lemma updateState_no_fields : forall now o a,
  updateState now (mkStatus None None o None) a = a.
Proof.
  intros now o a. unfold updateState.
  destruct (isCommandInProgress a); reflexivity.
Qed.

(** X9: in the revision whose handler calls [updateState], the events
    [device.connected] and [device.disconnected] change nothing:
    [updateState] reads [locked], [battery_level] and [door_open] and has no
    branch for [online]. *)
Theorem online_events_change_nothing : forall now p eventType accessories,
  event_type p = Some eventType ->
  eventType = "device.connected" \/ eventType = "device.disconnected" ->
  processWebhook now (JsObject p) accessories = accessories.
Proof.
  intros now p e accs He Hev. unfold processWebhook. rewrite He.
  destruct Hev as [-> | ->]; simpl; apply update_first_id; intros x;
    unfold dispatch, direct; simpl; apply updateState_no_fields.
Qed.

Lemma online_events_change_nothing_witness :
  processWebhook 1000
    (JsObject (mkPayload (Some "device.disconnected") (Some "d1") None None))
    [new_accessory "d1"]
  = [new_accessory "d1"].
Proof.
  apply (online_events_change_nothing 1000
           (mkPayload (Some "device.disconnected") (Some "d1") None None)
           "device.disconnected" [new_accessory "d1"] eq_refl).
  right. reflexivity.
Defined.

Lemma update_first_length : forall {A} (p : A -> bool) (f : A -> A) l,
  List.length (update_first p f l) = List.length l.
Proof.
  intros A p f l. induction l as [|x rest IH]; simpl; [reflexivity|].
  destruct (p x); simpl; [reflexivity|now rewrite IH].
Qed.

(** X10: in the same revision a lock event reaches the accessory of its
    device. For [lock.locked] and [lock.unlocked] the first accessory with
    the device id of the payload ends locked, respectively unlocked, when no
    command is in progress on it; while one is in progress the event is
    dropped and the accessory is unchanged. The number of accessories is
    the same. *)
Theorem lock_event_sets_lock_state : forall now p b acc accessories,
  event_type p = Some (if b : bool then "lock.locked" else "lock.unlocked") ->
  find (is_device (device_id p)) accessories = Some acc ->
  let accessories' := processWebhook now (JsObject p) accessories in
  exists acc',
    find (is_device (device_id p)) accessories' = Some acc'
    /\ (isCommandInProgress acc = false -> isLocked acc' = b)
    /\ (isCommandInProgress acc = true -> acc' = acc)
    /\ List.length accessories' = List.length accessories.
Proof.
  intros now p b acc accs He Hfind. cbv zeta.
  set (f := fun a => updateState now (mkStatus (Some b) None None None) a).
  assert (E : processWebhook now (JsObject p) accs
              = update_first (is_device (device_id p)) f accs).
  { unfold processWebhook. rewrite He.
    destruct b; simpl; reflexivity. }
  rewrite E. exists (f acc). split; [|split; [|split]].
  - apply WebhookFacts.find_update_first; [exact Hfind|].
    apply find_some in Hfind. destruct Hfind as [_ Hd].
    unfold is_device in *. destruct (device_id p) as [d|]; [|discriminate].
    subst f. simpl. now rewrite UpdateStateFacts.updateState_deviceId.
  - intros Hf. subst f. simpl.
    now apply (proj1 (updateState_idle now _ acc Hf)).
  - intros Hf. subst f. simpl. unfold updateState. now rewrite Hf.
  - apply update_first_length.
Qed.

Lemma lock_event_sets_lock_state_witness :
  exists acc',
    find (is_device (Some "d1"))
      (processWebhook 1000
         (JsObject (mkPayload (Some "lock.unlocked") (Some "d1") None None))
         [new_accessory "d0"; new_accessory "d1"]) = Some acc'
    /\ isLocked acc' = false.
Proof.
  destruct (lock_event_sets_lock_state 1000
              (mkPayload (Some "lock.unlocked") (Some "d1") None None) false
              (new_accessory "d1") [new_accessory "d0"; new_accessory "d1"]
              eq_refl eq_refl) as [acc' [H1 [H2 _]]].
  exists acc'. split; [exact H1|]. apply H2. reflexivity.
Defined.

End DirectFacts.

(** ** The receiver: what a request can change, and signatures of the wrong
    length *)
Module RequestFacts.
Import Accessory Reconciler Webhook.

Lemma processBody_frame : forall JSON_parse (upd : Method) now req accessories,
  let r := processBody JSON_parse upd now req accessories in
  (statusCode (fst r) = 200%nat \/ statusCode (fst r) = 400%nat)
  /\ (statusCode (fst r) <> 200%nat -> snd r = accessories).
Proof.
  intros parse upd now req accs. unfold processBody.
  destruct (parse (body req)) as [[| |p]|]; simpl; split; auto;
    intros H; now elim H.
Qed.

(** X11: only an accepted request changes state. [handleRequest] answers
    200, 400, 401 or 404, and whenever the status is not 200 the accessories
    are exactly as before: a request on another path, with another method,
    with a signature that does not verify or with a body that does not parse
    has no effect on any accessory. *)
Theorem only_accepted_requests_change_state :
  forall JSON_parse (updateStateWithPriority : Method) this now req
         accessories,
  let r :=
    handleRequest JSON_parse updateStateWithPriority this now req
      accessories in
  (statusCode (fst r) = 200%nat \/ statusCode (fst r) = 400%nat
   \/ statusCode (fst r) = 401%nat \/ statusCode (fst r) = 404%nat)
  /\ (statusCode (fst r) = 200%nat \/ snd r = accessories).
Proof.
  intros parse upd this now req accs. unfold handleRequest.
  destruct (processBody_frame parse upd now req accs) as [Hs Hf].
  cbv zeta in Hs, Hf.
  assert (Hp : let r := processBody parse upd now req accs in
               (statusCode (fst r) = 200%nat \/ statusCode (fst r) = 400%nat
                \/ statusCode (fst r) = 401%nat
                \/ statusCode (fst r) = 404%nat)
               /\ (statusCode (fst r) = 200%nat \/ snd r = accs)).
  { cbv zeta. split; [tauto|].
    destruct Hs as [Hs|Hs]; [now left|]. right. apply Hf. rewrite Hs.
    discriminate. }
  destruct (negb (String.eqb (method req) "POST")
            || negb match path this with
                    | Some p => String.eqb (url req) p
                    | None => false
                    end).
  - simpl. auto.
  - destruct (signatureOf req) as [sig|]; [|exact Hp].
    destruct (negb (verifySignature this (body req) sig)); [|exact Hp].
    simpl. auto.
Qed.

Lemma update_first_nth_error : forall {A} (p : A -> bool) (f : A -> A) l k x,
  nth_error l k = Some x -> p x = false ->
  nth_error (update_first p f l) k = Some x.
Proof.
  intros A p f l. induction l as [|y rest IH]; intros k x Hk Hp.
  - destruct k; discriminate Hk.
  - simpl. destruct k as [|k]; simpl in *.
    + injection Hk as ->. now rewrite Hp.
    + destruct (p y); simpl; [exact Hk|]. now apply IH.
Qed.

Lemma update_first_one_index : forall {A} (p : A -> bool) (f : A -> A) l,
  exists k, forall j, j <> k ->
    nth_error (update_first p f l) j = nth_error l j.
Proof.
  intros A p f l. induction l as [|y rest IH].
  - exists 0%nat. reflexivity.
  - simpl. destruct (p y).
    + exists 0%nat. intros [|j] Hj; [now elim Hj|reflexivity].
    + destruct IH as [k Hk]. exists (S k). intros [|j] Hj; [reflexivity|].
      simpl. apply Hk. intros ->. now elim Hj.
Qed.

Lemma update_first_none : forall {A} (p : A -> bool) (f : A -> A) l,
  find p l = None -> update_first p f l = l.
Proof.
  intros A p f l. induction l as [|y rest IH]; simpl; [reflexivity|].
  destruct (p y); [discriminate|]. intros H. now rewrite IH.
Qed.

(** X12: a webhook touches one accessory at most. Whatever the payload and
    whatever the reconciler does, [processWebhook] keeps the number of
    accessories, changes at most one position of the array, leaves every
    accessory of another device as it is, and changes nothing at all when
    no accessory has the device id of the payload. *)
Theorem processWebhook_touches_one_accessory :
  forall (updateStateWithPriority : Method) now payload accessories,
  let accessories' :=
    processWebhook updateStateWithPriority now payload accessories in
  List.length accessories' = List.length accessories
  /\ (exists k, forall j, j <> k ->
        nth_error accessories' j = nth_error accessories j)
  /\ (forall p j a,
        payload = JsObject p -> nth_error accessories j = Some a ->
        is_device (device_id p) a = false ->
        nth_error accessories' j = Some a)
  /\ (forall p,
        payload = JsObject p ->
        find (is_device (device_id p)) accessories = None ->
        accessories' = accessories).
Proof.
  intros upd now payload accs. cbv zeta.
  assert (Same : forall payload' : JsValue,
            List.length accs = List.length accs
            /\ (exists k : nat, forall j, j <> k ->
                  nth_error accs j = nth_error accs j)
            /\ (forall p j a,
                  payload' = JsObject p -> nth_error accs j = Some a ->
                  is_device (device_id p) a = false ->
                  nth_error accs j = Some a)
            /\ (forall p,
                  payload' = JsObject p ->
                  find (is_device (device_id p)) accs = None ->
                  accs = accs)).
  { intros payload'. split; [reflexivity|]. split; [now exists 0%nat|].
    split; [now intros|reflexivity]. }
  unfold processWebhook.
  destruct payload as [| |p]; [apply Same|apply Same|].
  destruct (event_type p) as [e|]; [|apply Same].
  destruct (negb (Js.truthy_string e)); [apply Same|].
  split; [apply DirectFacts.update_first_length|].
  split; [apply update_first_one_index|]. split.
  - intros q j a Hq Hj Hd. injection Hq as <-.
    now apply update_first_nth_error.
  - intros q Hq Hn. injection Hq as <-. now apply update_first_none.
Qed.

(** *** The decoded digest has 32 bytes *)

Lemma compress_length : forall h block,
  List.length (Crypto.compress h block) = 8%nat.
Proof.
  intros h block. unfold Crypto.compress. now rewrite length_map.
Qed.

Lemma fold_compress_length : forall bs h,
  List.length h = 8%nat ->
  List.length (fold_left Crypto.compress bs h) = 8%nat.
Proof.
  induction bs as [|b rest IH]; intros h Hh; simpl; [exact Hh|].
  apply IH. apply compress_length.
Qed.

Lemma flat_map_bytes_length : forall ws,
  List.length (flat_map (Crypto.bytes_of_word 4) ws)
  = (4 * List.length ws)%nat.
Proof.
  induction ws as [|w rest IH]; [reflexivity|].
  change (flat_map (Crypto.bytes_of_word 4) (w :: rest))
    with (Crypto.bytes_of_word 4 w ++ flat_map (Crypto.bytes_of_word 4) rest).
  rewrite length_app, IH.
  unfold Crypto.bytes_of_word. rewrite length_map, length_seq.
  simpl List.length. lia.
Qed.

Lemma sha256_length : forall bytes,
  List.length (Crypto.sha256 bytes) = 32%nat.
Proof.
  intros bytes. unfold Crypto.sha256. rewrite flat_map_bytes_length.
  rewrite fold_compress_length; reflexivity.
Qed.

Lemma hex_digit_hex_char : forall n : N,
  (n < 16)%N -> hex_digit (Crypto.hex_char n) = Some n.
Proof.
  intros n H. destruct n as [|p]; [reflexivity|].
  do 4 (try (destruct p as [p|p|]; try reflexivity)); lia.
Qed.

Lemma Buffer_from_hex_hex : forall bytes,
  Forall (fun b => (b < 256)%N) bytes ->
  Buffer_from_hex (Crypto.hex bytes) = map ascii_of_N bytes.
Proof.
  induction 1 as [|b rest Hb _ IH]; [reflexivity|].
  simpl Crypto.hex. simpl Buffer_from_hex.
  assert (H1 : (b / 16 < 16)%N)
    by (apply N.Div0.div_lt_upper_bound; exact Hb).
  assert (H2 : (b mod 16 < 16)%N) by (apply N.mod_lt; discriminate).
  rewrite (hex_digit_hex_char _ H1), (hex_digit_hex_char _ H2), IH.
  simpl map. f_equal. f_equal.
  rewrite (N.div_mod b 16) at 3 by discriminate. reflexivity.
Qed.

Lemma digest_decodes_to_32_bytes : forall key data,
  List.length (Buffer_from_hex (Crypto.hmac_sha256_hex key data)) = 32%nat.
Proof.
  intros key data. unfold Crypto.hmac_sha256_hex, Crypto.hmac_sha256.
  rewrite Buffer_from_hex_hex by apply ReceiverFacts.sha256_small.
  rewrite length_map. apply sha256_length.
Qed.

Lemma Buffer_from_hex_length : forall n s,
  (String.length s <= n)%nat ->
  (2 * List.length (Buffer_from_hex s) <= String.length s)%nat.
Proof.
  induction n as [|n IH]; intros s Hs.
  - destruct s; [simpl; lia|simpl in Hs; lia].
  - destruct s as [|c1 [|c2 rest]]; simpl; try lia.
    destruct (hex_digit c1), (hex_digit c2); simpl; try lia.
    assert (String.length rest <= n)%nat by (simpl in Hs; lia).
    specialize (IH rest H). lia.
Qed.

(** X13: a signature of the wrong length is rejected. With a session secret
    set, [verifySignature] returns false for every signature whose
    hexadecimal decoding, the first ["sha256="] removed, is not 32 bytes
    long: [timingSafeEqual] throws and the [catch] answers false. In
    particular a signature with fewer than 64 characters after the prefix
    is rejected, whatever the payload. *)
Theorem signature_of_wrong_length_is_rejected :
  forall this key payload signature,
  secret this = Some key ->
  Js.truthy_string key = true ->
  List.length (Buffer_from_hex (replace_first "sha256=" signature))
  <> 32%nat
  \/ (String.length (replace_first "sha256=" signature) < 64)%nat ->
  verifySignature this payload signature = false.
Proof.
  intros this key payload sig Hs Hk Hlen.
  assert (Hne : List.length (Buffer_from_hex (replace_first "sha256=" sig))
                <> 32%nat).
  { destruct Hlen as [H|H]; [exact H|].
    pose proof (Buffer_from_hex_length _ (replace_first "sha256=" sig)
                  (Nat.le_refl _)). lia. }
  unfold verifySignature. rewrite Hs, Hk. simpl.
  destruct (Js.truthy_string sig); [|reflexivity]. simpl.
  unfold timingSafeEqual. rewrite digest_decodes_to_32_bytes.
  destruct (Nat.eqb_spec 32
              (List.length (Buffer_from_hex (replace_first "sha256=" sig))))
    as [E|E]; [|reflexivity].
  now elim Hne.
Qed.

Lemma signature_of_wrong_length_is_rejected_witness :
  verifySignature Samples.listening Samples.locked_body
    "sha256=26b1df857314968c0de41d4e7075b48b" = false.
Proof.
  apply (signature_of_wrong_length_is_rejected Samples.listening "s"
           Samples.locked_body "sha256=26b1df857314968c0de41d4e7075b48b"
           eq_refl eq_refl).
  right. simpl. lia.
Defined.

End RequestFacts.

(** ** Registration when the remote API may reject calls *)
Module RegistrationFacts.
Import Accessory Webhook Lifecycle.

Lemma deleteWebhook_webhooks : forall id r wh,
  (In wh (webhooks (snd (deleteWebhook id r))) -> In wh (webhooks r))
  /\ (In wh (webhooks r) -> webhook_id wh <> id ->
      In wh (webhooks (snd (deleteWebhook id r)))).
Proof.
  intros id r wh. unfold deleteWebhook.
  destruct (rejects r (DeleteWebhook id)); simpl; [tauto|]. split.
  - intros H. apply filter_In in H. tauto.
  - intros H Hne. apply filter_In. split; [exact H|].
    apply negb_true_iff. now apply Nat.eqb_neq.
Qed.

Lemma sweep_webhooks : forall c existing r wh,
  (In wh (webhooks (sweep c existing r)) -> In wh (webhooks r))
  /\ (In wh (webhooks r) ->
      (forall d, In d existing -> matches_base c d = true ->
                 webhook_id d <> webhook_id wh) ->
      In wh (webhooks (sweep c existing r))).
Proof.
  intros c existing. unfold sweep.
  induction existing as [|d rest IH]; intros r wh; simpl; [tauto|].
  destruct (matches_base c d) eqn:M.
  - destruct (IH (snd (deleteWebhook (webhook_id d) r)) wh) as [I1 I2].
    destruct (deleteWebhook_webhooks (webhook_id d) r wh) as [D1 D2].
    split.
    + intros H. auto.
    + intros H Hd. apply I2.
      * apply D2; [exact H|]. intros E. apply (Hd d); auto.
      * intros d' Hin. apply Hd. now right.
  - destruct (IH r wh) as [I1 I2]. split; [exact I1|].
    intros H Hd. apply I2; [exact H|]. intros d' Hin. apply Hd. now right.
Qed.

Lemma cleanupWebhook_next_id : forall c r,
  next_id (cleanupWebhook c r) = next_id r.
Proof.
  intros c r. unfold cleanupWebhook, listWebhooks.
  destruct (rejects r ListWebhooks); [reflexivity|].
  apply LifecycleFacts.sweep_next_id.
Qed.

Lemma cleanupWebhook_rejects : forall c r,
  rejects (cleanupWebhook c r) = rejects r.
Proof.
  intros c r. unfold cleanupWebhook, listWebhooks.
  destruct (rejects r ListWebhooks); [reflexivity|].
  apply LifecycleFacts.sweep_rejects.
Qed.

Lemma cleanupWebhook_subset : forall c r wh,
  In wh (webhooks (cleanupWebhook c r)) -> In wh (webhooks r).
Proof.
  intros c r wh. unfold cleanupWebhook, listWebhooks.
  destruct (rejects r ListWebhooks); [auto|]. apply sweep_webhooks.
Qed.

(** X14: the cleanup never harms another integration. Whatever calls the
    remote API rejects, [cleanupWebhook] creates nothing, every subscription
    that exists afterwards existed before, and a subscription whose
    identifier is not that of a subscription on the configured base URL is
    still there afterwards. *)
Theorem cleanupWebhook_spares_other_subscriptions : forall c r,
  let r' := cleanupWebhook c r in
  next_id r' = next_id r
  /\ (forall wh, In wh (webhooks r') -> In wh (webhooks r))
  /\ (forall wh, In wh (webhooks r) ->
        (forall d, In d (webhooks r) -> matches_base c d = true ->
                   webhook_id d <> webhook_id wh) ->
        In wh (webhooks r')).
Proof.
  intros c r. cbv zeta.
  split; [apply cleanupWebhook_next_id|].
  split; [apply cleanupWebhook_subset|].
  intros wh. unfold cleanupWebhook, listWebhooks.
  destruct (rejects r ListWebhooks); [auto|]. apply sweep_webhooks.
Qed.

(** X15: the identifier that [registerWebhook] stores names a live
    subscription. Whatever calls the remote API rejects, either the server
    object and the saved configuration are as before (nothing was adopted or
    created), or [webhookId] is the identifier of a subscription that the
    remote API holds for the address of this server. The path and the
    secret of the server are never changed. *)
Theorem registerWebhook_stores_a_live_id : forall accessories w,
  let w' := registerWebhook accessories w in
  path (this w') = path (this w)
  /\ secret (this w') = secret (this w)
  /\ ((this w' = this w /\ config w' = config w)
      \/ exists wh,
           In wh (webhooks (remote w'))
           /\ webhookId (this w') = Some (webhook_id wh)
           /\ wh_url wh = Manual.target_of (this w)).
Proof.
  intros accs w. cbv zeta. unfold registerWebhook, listWebhooks.
  destruct (rejects (remote w) ListWebhooks); [simpl; auto|].
  destruct (find _ (webhooks (remote w))) as [wh|] eqn:F.
  - simpl. split; [reflexivity|]. split; [reflexivity|]. right.
    exists wh. apply find_some in F. destruct F as [Hin Hu].
    split; [exact Hin|]. split; [reflexivity|].
    unfold Manual.target_of. destruct (webhookUrl (this w)) as [u|];
      [|discriminate]. now apply String.eqb_eq.
  - unfold createWebhook.
    destruct (rejects (cleanupWebhook (config w) (remote w))
                (CreateWebhook _)); simpl; [auto|].
    split; [reflexivity|]. split; [reflexivity|]. right.
    eexists. split; [apply in_or_app; right; left; reflexivity|].
    split; reflexivity.
Qed.

(** X16: [start] creates one subscription at most. It throws only when
    [listen] fails; the identifier counter of the remote API advances by one
    at most, and only if webhooks are enabled, a base URL is configured and
    [listen] succeeded; every subscription that exists afterwards existed
    before or is the new one, for the base URL followed by the fresh
    path. *)
Theorem start_creates_one_subscription_at_most :
  forall uuid secretHex listen_ok accessories w,
  let r := start uuid secretHex listen_ok accessories w in
  (snd r = true -> listen_ok = false)
  /\ (next_id (remote (fst r)) = next_id (remote w)
      \/ (next_id (remote (fst r)) = S (next_id (remote w))
          /\ enabled (config w) = true /\ listen_ok = true))
  /\ (forall wh, In wh (webhooks (remote (fst r))) ->
        In wh (webhooks (remote w))
        \/ exists base,
             cfg_url (config w) = Some base
             /\ wh = mkWebhook (next_id (remote w))
                       (base ++ ("/" ++ uuid))
                       (getSupportedWebhookEvents accessories)).
Proof.
  intros uuid secretHex listen_ok accs w. cbv zeta. unfold start.
  destruct (enabled (config w)) eqn:En; simpl.
  - destruct (cfg_url (config w)) as [base|] eqn:Hu;
      [|simpl; repeat split; auto; discriminate].
    destruct (Js.truthy_string base); simpl;
      [|repeat split; auto; discriminate].
    destruct listen_ok; simpl; [|repeat split; auto].
    split; [discriminate|].
    unfold registerWebhook, listWebhooks. simpl.
    destruct (rejects (remote w) ListWebhooks); [simpl; auto|].
    destruct (find _ (webhooks (remote w))) as [wh|]; [simpl; auto|].
    unfold createWebhook.
    destruct (rejects (cleanupWebhook _ (remote w)) (CreateWebhook _));
      simpl.
    + rewrite cleanupWebhook_next_id. split; [now left|].
      intros wh Hin. left. now apply cleanupWebhook_subset in Hin.
    + rewrite cleanupWebhook_next_id. split; [right; auto|].
      intros wh Hin. apply in_app_or in Hin. destruct Hin as [Hin|Hin].
      * left. now apply cleanupWebhook_subset in Hin.
      * right. exists base. split; [reflexivity|].
        destruct Hin as [<-|[]]. reflexivity.
  - split; [discriminate|]. rewrite cleanupWebhook_next_id.
    split; [now left|]. intros wh Hin. left.
    now apply cleanupWebhook_subset in Hin.
Qed.

(** X17: the events subscribed to follow the door sensors. The list of
    [getSupportedWebhookEvents] holds the six base events always, and each
    of the two door events exactly when some accessory supports a door
    sensor; every event in the list is one that [processWebhook] acts on
    for an accessory with a door sensor and a payload with a non-zero
    battery level. *)
Theorem door_events_follow_door_sensors : forall accessories,
  let events := getSupportedWebhookEvents accessories in
  (forall e,
     In e ["device.connected"; "device.disconnected"; "lock.locked";
           "lock.unlocked"; "device.low_battery";
           "device.battery_status_changed"] -> In e events)
  /\ (In "device.door_opened" events
      <-> exists a, In a accessories /\ supportsDoorSensor a = true)
  /\ (In "device.door_closed" events
      <-> exists a, In a accessories /\ supportsDoorSensor a = true)
  /\ (forall e payload accessory v,
        In e events ->
        payload_battery_level payload = Some v ->
        Js.truthy_number v = true ->
        supportsDoorSensor accessory = true ->
        silent e payload accessory = false).
Proof.
  intros accs. cbv zeta. unfold getSupportedWebhookEvents.
  destruct (existsb supportsDoorSensor accs) eqn:E.
  - apply existsb_exists in E. split; [|split; [|split]].
    + intros e He. apply in_or_app. now left.
    + split; [intros _; exact E|intros _; simpl; tauto].
    + split; [intros _; exact E|intros _; simpl; tauto].
    + intros e payload acc v He Hv Ht Hd. unfold silent.
      rewrite Hv, Ht, Hd. simpl in He.
      repeat (destruct He as [<-|He]; [reflexivity|]). destruct He.
  - assert (N : ~ exists a, In a accs /\ supportsDoorSensor a = true).
    { intros H. apply existsb_exists in H. congruence. }
    split; [|split; [|split]].
    + auto.
    + split; [|intros H; now elim N]. simpl.
      intros H. repeat (destruct H as [H|H]; [discriminate H|]).
      destruct H.
    + split; [|intros H; now elim N]. simpl.
      intros H. repeat (destruct H as [H|H]; [discriminate H|]).
      destruct H.
    + intros e payload acc v He Hv Ht Hd. unfold silent.
      rewrite Hv, Ht. simpl in He.
      repeat (destruct He as [<-|He]; [reflexivity|]). destruct He.
Qed.


End RegistrationFacts.

(** ** Commands: failures, the lock state and the count of calls *)
Module WaitingFacts.
Import Accessory Command Waiting.

Lemma resume_same_state : forall fulfilled p v c,
  same_state (accessory v) (accessory (resume fulfilled p v c)).
Proof.
  intros fulfilled p v c. unfold resume, same_state.
  destruct c as [q b|q]; destruct (Nat.eqb q p); try destruct fulfilled;
    simpl; auto.
Qed.

Lemma resume_all_same_state : forall fulfilled p cs v,
  same_state (accessory v) (accessory (fold_left (resume fulfilled p) cs v)).
Proof.
  intros fulfilled p cs. induction cs as [|c rest IH]; intros v; simpl.
  - split; reflexivity.
  - destruct (IH (resume fulfilled p v c)) as [H1 H2].
    destruct (resume_same_state fulfilled p v c) as [K1 K2].
    split; congruence.
Qed.

Lemma settle_same_state : forall fulfilled p w,
  same_state (accessory w) (accessory (settle fulfilled p w)).
Proof.
  intros fulfilled p w. unfold settle.
  apply (resume_all_same_state fulfilled p (callers w)
           (mkWorld (accessory w) []
              (filter (fun o => negb (Nat.eqb (op_promise o) p))
                 (operations w))
              (next_promise w) (remote_calls w) (exits w))).
Qed.

(** X19: the lock state changes on a successful reply only. Whatever the
    callers and commands in flight, an event other than the successful reply
    of the remote API leaves [isLocked] and the characteristics pushed to
    HomeKit as they are: a new call, a rejected reply, the command timeout
    and the end of the delay change neither. *)
Theorem lock_state_changes_on_success_only : forall e w w',
  step e w = Some w' ->
  (forall p, e <> RemoteReply p true) ->
  same_state (accessory w) (accessory w').
Proof.
  intros e w w' Hstep Hne. unfold step in Hstep.
  destruct e as [b|p ok|p|p].
  - destruct (isCommandInProgress (accessory w)).
    + destruct (commandPromise (accessory w)) as [p|].
      * destruct (pending p w); [|discriminate].
        injection Hstep as <-. split; reflexivity.
      * injection Hstep as <-. split; reflexivity.
    + injection Hstep as <-. split; reflexivity.
  - destruct (pending p w) as [[q sl [|]]|]; try discriminate.
    destruct ok; [now elim (Hne p)|].
    injection Hstep as <-. apply settle_same_state.
  - destruct (pending p w) as [[q sl [|]]|]; try discriminate.
    injection Hstep as <-. apply settle_same_state.
  - destruct (pending p w) as [[q sl [|]]|]; try discriminate.
    injection Hstep as <-. apply settle_same_state.
Qed.

Lemma lock_state_changes_on_success_only_witness :
  exists w',
    step (TimeoutFires 0) (startCommand false (quiet (new_accessory "d1")))
    = Some w'
    /\ isLocked (accessory w') = true.
Proof.
  eexists. split; [reflexivity|].
  apply (proj1 (lock_state_changes_on_success_only (TimeoutFires 0)
                  (startCommand false (quiet (new_accessory "d1"))) _
                  eq_refl (fun p H => ltac:(discriminate H)))).
Defined.

Lemma resume_rejected : forall p cs v,
  let v' := fold_left (resume false p) cs v in
  remote_calls v' = remote_calls v
  /\ next_promise v' = next_promise v
  /\ operations v' = operations v
  /\ callers v' = callers v ++ filter (fun c => negb (awaits p c)) cs
  /\ exits v'
     = exits v ++ repeat Threw (List.length (filter (awaits p) cs)).
Proof.
  intros p cs. induction cs as [|c rest IH]; intros v; cbv zeta.
  - simpl. now rewrite !app_nil_r.
  - simpl fold_left. destruct (IH (resume false p v c)) as [H1 [H2 [H3 [H4 H5]]]].
    rewrite H1, H2, H3, H4, H5. clear IH H1 H2 H3 H4 H5.
    unfold resume. simpl filter.
    destruct c as [q b|q]; simpl awaits; destruct (Nat.eqb q p); simpl;
      rewrite <- ?app_assoc; auto.
Qed.

(** X20: a command that fails issues no further call. When the promise [p]
    is rejected, by a rejected reply or by the timeout, every caller that
    waits on it ends by throwing, the owner and the queued callers alike:
    no queued command is started, the number of remote calls is unchanged,
    and the callers that wait on other promises stay suspended in their
    order. *)
Theorem rejected_command_starts_nothing : forall p w,
  let w' := settle false p w in
  remote_calls w' = remote_calls w
  /\ next_promise w' = next_promise w
  /\ callers w' = filter (fun c => negb (awaits p c)) (callers w)
  /\ exits w'
     = exits w ++ repeat Threw (List.length (filter (awaits p) (callers w)))
  /\ same_state (accessory w) (accessory w').
Proof.
  intros p w. cbv zeta. unfold settle.
  destruct (resume_rejected p (callers w)
              (mkWorld (accessory w) []
                 (filter (fun o => negb (Nat.eqb (op_promise o) p))
                    (operations w))
                 (next_promise w) (remote_calls w) (exits w)))
    as [H1 [H2 [_ [H4 H5]]]].
  repeat split; try assumption.
  - apply (resume_all_same_state false p (callers w)
             (mkWorld (accessory w) []
                (filter (fun o => negb (Nat.eqb (op_promise o) p))
                   (operations w))
                (next_promise w) (remote_calls w) (exits w))).
  - apply (resume_all_same_state false p (callers w)
             (mkWorld (accessory w) []
                (filter (fun o => negb (Nat.eqb (op_promise o) p))
                   (operations w))
                (next_promise w) (remote_calls w) (exits w))).
Qed.

Lemma resume_counts : forall fulfilled p cs v,
  let v' := fold_left (resume fulfilled p) cs v in
  (List.length (exits v') + List.length (callers v')
   = List.length (exits v) + List.length (callers v) + List.length cs)%nat
  /\ (remote_calls v' + List.length (queued (callers v'))
      <= remote_calls v + List.length (queued (callers v))
         + List.length (queued cs))%nat.
Proof.
  intros fulfilled p cs. induction cs as [|c rest IH]; intros v; cbv zeta.
  - simpl. lia.
  - simpl fold_left. destruct (IH (resume fulfilled p v c)) as [H1 H2].
    assert (K : (List.length (exits (resume fulfilled p v c))
                 + List.length (callers (resume fulfilled p v c))
                 = List.length (exits v) + List.length (callers v) + 1)%nat
                /\ (remote_calls (resume fulfilled p v c)
                    + List.length (queued (callers (resume fulfilled p v c)))
                    <= remote_calls v + List.length (queued (callers v))
                       + List.length (queued [c]))%nat).
    { unfold resume, queued.
      destruct c as [q b|q]; destruct (Nat.eqb q p); try destruct fulfilled;
        simpl; rewrite ?filter_app, ?length_app; simpl; lia. }
    destruct K as [K1 K2]. split; [simpl List.length; lia|].
    assert (Qc : queued (c :: rest) = queued [c] ++ queued rest)
      by (unfold queued; apply (filter_app _ [c] rest)).
    rewrite Qc, length_app. lia.
Qed.

Lemma step_counts : forall e w w',
  step e w = Some w' ->
  (List.length (exits w') + List.length (callers w')
   = List.length (exits w) + List.length (callers w)
     + List.length (requests [e]))%nat
  /\ (remote_calls w' + List.length (queued (callers w'))
      <= remote_calls w + List.length (queued (callers w))
         + List.length (requests [e]))%nat.
Proof.
  intros e w w' Hstep.
  assert (S : forall fulfilled p,
            (List.length (exits (settle fulfilled p w))
             + List.length (callers (settle fulfilled p w))
             = List.length (exits w) + List.length (callers w) + 0)%nat
            /\ (remote_calls (settle fulfilled p w)
                + List.length (queued (callers (settle fulfilled p w)))
                <= remote_calls w + List.length (queued (callers w)) + 0)%nat).
  { intros fulfilled p. unfold settle.
    destruct (resume_counts fulfilled p (callers w)
                (mkWorld (accessory w) []
                   (filter (fun o => negb (Nat.eqb (op_promise o) p))
                      (operations w))
                   (next_promise w) (remote_calls w) (exits w)))
      as [H1 H2].
    simpl in H1, H2. lia. }
  unfold step in Hstep. destruct e as [b|p ok|p|p]; simpl requests.
  - assert (Q : forall c, queued (callers w ++ [c])
                          = queued (callers w) ++ queued [c])
      by (intros c; unfold queued; apply filter_app).
    destruct (isCommandInProgress (accessory w)).
    + destruct (commandPromise (accessory w)) as [p|].
      * destruct (pending p w); [|discriminate].
        injection Hstep as <-. simpl. rewrite Q, !length_app. simpl. lia.
      * injection Hstep as <-. simpl. rewrite Q, !length_app. simpl. lia.
    + injection Hstep as <-. simpl. rewrite Q, !length_app. simpl. lia.
  - destruct (pending p w) as [[q sl [|]]|]; try discriminate.
    destruct ok.
    + injection Hstep as <-. simpl. lia.
    + injection Hstep as <-. apply S.
  - destruct (pending p w) as [[q sl [|]]|]; try discriminate.
    injection Hstep as <-. apply S.
  - destruct (pending p w) as [[q sl [|]]|]; try discriminate.
    injection Hstep as <-. apply S.
Qed.

Lemma run_counts : forall events w w',
  run events w = Some w' ->
  (List.length (exits w') + List.length (callers w')
   = List.length (exits w) + List.length (callers w)
     + List.length (requests events))%nat
  /\ (remote_calls w' + List.length (queued (callers w'))
      <= remote_calls w + List.length (queued (callers w))
         + List.length (requests events))%nat.
Proof.
  induction events as [|e rest IH]; intros w w' Hrun; simpl in Hrun.
  - injection Hrun as <-. simpl. lia.
  - destruct (step e w) as [w1|] eqn:E; [|discriminate].
    destruct (step_counts e w w1 E) as [S1 S2].
    destruct (IH w1 w' Hrun) as [I1 I2].
    assert (Re : requests (e :: rest) = requests [e] ++ requests rest)
      by (unfold requests; apply (filter_app _ [e] rest)).
    rewrite Re, length_app. lia.
Qed.

(** X21: every call is accounted for. Along any run of events that starts
    with no call active, each call of [setLockTargetState] is either still
    suspended or has ended, once: the exits and the suspended callers
    together number the calls made. At most one remote lock/unlock request
    has been issued per call, and a call that still waits for another
    call's command has issued none. *)
Theorem every_call_is_accounted_for : forall events a w,
  run events (quiet a) = Some w ->
  (List.length (exits w) + List.length (callers w)
   = List.length (requests events))%nat
  /\ (remote_calls w + List.length (queued (callers w))
      <= List.length (requests events))%nat.
Proof.
  intros events a w Hrun.
  destruct (run_counts events (quiet a) w Hrun) as [H1 H2].
  simpl in H1, H2. lia.
Qed.

Lemma every_call_is_accounted_for_witness :
  exists w,
    run [Request true; Request false; Request true; RemoteReply 0 false]
      (quiet (new_accessory "d1")) = Some w
    /\ (List.length (exits w) + List.length (callers w) = 3)%nat.
Proof.
  eexists. split; [reflexivity|].
  apply (proj1 (every_call_is_accounted_for
                  [Request true; Request false; Request true;
                   RemoteReply 0 false]
                  (new_accessory "d1") _ eq_refl)).
Defined.

End WaitingFacts.
